(** * friend-reminder: contact service and reminder scheduler

    A shallow embedding of the two halves of the application:

    - the Express router of the server (load/save helpers and the four
      handlers registered on [/api/friend-contacts]);
    - the parts of the React client [App] that carry state semantics: the
      contact cache handlers, the reminder checker run by [setInterval], and
      the display sort.

    Request bodies and stored records are untyped JSON on the server side
    (the handlers spread [req.body] whatever keys it has), so they are
    modelled as finite maps from keys to JSON values.  The client works on
    its [ContactData] interface, modelled as a record. *)

From Stdlib Require Import Ascii.
From stdpp Require Import gmap strings list fin_maps pretty sorting.

Open Scope Z_scope.

(** ** JSON values *)

(** A JavaScript object obtained from [JSON.parse] is a finite map from
    string keys to values.  Key order is not modelled: no handler depends on
    it.  Numbers are opaque payload for this code and are kept as integers. *)
#[warnings="-register-all"]
Inductive json : Type :=
  | JNull
  | JBool (b : bool)
  | JNum (n : Z)
  | JStr (s : string)
  | JArr (items : list json)
  | JObj (fields : gmap string json).

Abbreviation obj := (gmap string json).

(** [Array.isArray] on a property read. *)
Definition isArray (v : option json) : bool :=
  match v with
  | Some (JArr _) => true
  | _ => false
  end.

(** [Array.isArray(v) ? v : dflt] for property reads [v] and [dflt]. *)
Definition array_or (v dflt : option json) : option json :=
  if isArray v then v else dflt.

(** [v === s] for a property read [v] and a string [s]: strict equality
    holds only for a string value with the same characters. *)
Definition strict_eq_str (v : option json) (s : string) : bool :=
  match v with
  | Some (JStr s') => bool_decide (s' = s)
  | _ => false
  end.

(** Object spread [{...a, ...b}]: the keys of [b] override those of [a]. *)
Definition spread (a b : obj) : obj := b ∪ a.

(** The trailing [k: v] of an object literal, where [v] is a property read.
    A key set to [undefined] does not survive [JSON.stringify], which every
    record goes through on its way to the file and to the response, so it
    is dropped here. *)
Definition set_prop (k : string) (v : option json) (o : obj) : obj :=
  match v with
  | Some x => <[k := x]> o
  | None => delete k o
  end.

Module Server.

(** ** Server: the data file *)

(** The data file as the handlers see it.  [data] is what
    [fs.readFileSync] followed by [JSON.parse] yields: an array of objects,
    or [None] when the read or the parse throws.  [writable] tells whether
    [fs.writeFileSync] succeeds.  Every write made by this program stores
    an array of objects ([saveContacts], and the bootstrap [[]]). *)
Record disk : Type := Disk {
  data : option (list obj);
  writable : bool
}.

(** The per-record step of [loadContacts]:
    [{...c, notes: Array.isArray(c.notes) ? c.notes : []}]. *)
Definition normalize (c : obj) : obj :=
  set_prop "notes" (array_or (c !! "notes") (Some (JArr []))) c.

(** [loadContacts]; [None] stands for the exception thrown by the read or
    the parse. *)
Definition loadContacts (d : disk) : option (list obj) :=
  map normalize <$> data d.

(** [saveContacts]; [None] stands for the exception thrown by the write.
    What the file holds after a failed write is not modelled (the write
    may have truncated it): the handlers below hand back the old value
    with their 500, and no property speaks about the file in that case. *)
Definition saveContacts (contacts : list obj) (d : disk) : option disk :=
  if writable d then Some (Disk (Some contacts) true) else None.

(** ** Server: the handlers *)

(** What a handler sends: the status code and the JSON body. *)
Record response : Type := Response {
  status : Z;
  body : json
}.

Definition message (text : string) : json := JObj {[ "message" := JStr text ]}.
Definition contact_body (c : obj) : json := JObj {[ "contact" := JObj c ]}.

(** [Date.now().toString()]: the decimal rendering of the clock reading. *)
Definition toString (ms : Z) : string := pretty ms.

(** [contacts.findIndex((c) => c.id === id)], with [None] for [-1]. *)
Fixpoint findIndex (id : string) (contacts : list obj) : option nat :=
  match contacts with
  | [] => None
  | c :: rest =>
      if strict_eq_str (c !! "id") id then Some 0%nat
      else S <$> findIndex id rest
  end.

(** [router.get("/")]. *)
Definition router_get (d : disk) : response * disk :=
  match loadContacts d with
  | Some contacts => (Response 200 (JArr (JObj <$> contacts)), d)
  | None => (Response 500 (message "Failed to load contacts"), d)
  end.

(** The record built by [router.post]:
    [{id: Date.now().toString(), ...req.body, notes: ...}]. *)
Definition newContact (now : Z) (req_body : obj) : obj :=
  set_prop "notes" (array_or (req_body !! "notes") (Some (JArr [])))
    (spread {[ "id" := JStr (toString now) ]} req_body).

(** [router.post("/")]; [now] is the reading of [Date.now()] and
    [req_body] the JSON object that the body parser stored in [req.body]. *)
Definition router_post (now : Z) (req_body : obj) (d : disk) : response * disk :=
  match loadContacts d with
  | Some contacts =>
      let c := newContact now req_body in
      match saveContacts (contacts ++ [c]) d with
      | Some d' => (Response 201 (contact_body c), d')
      | None => (Response 500 (message "Failed to save contact"), d)
      end
  | None => (Response 500 (message "Failed to save contact"), d)
  end.

(** The record built by [router.put]:
    [{...contacts[idx], ...req.body, notes: ...}]. *)
Definition updated (existing req_body : obj) : obj :=
  set_prop "notes" (array_or (req_body !! "notes") (existing !! "notes"))
    (spread existing req_body).

(** [router.put("/:id")].  Reading [contacts[idx].notes] at an index
    outside the array would throw, hence the last branch. *)
Definition router_put (id : string) (req_body : obj) (d : disk) : response * disk :=
  match loadContacts d with
  | Some contacts =>
      match findIndex id contacts with
      | None => (Response 404 (message "Contact not found"), d)
      | Some idx =>
          match contacts !! idx with
          | Some existing =>
              let u := updated existing req_body in
              match saveContacts (<[idx := u]> contacts) d with
              | Some d' => (Response 200 (contact_body u), d')
              | None => (Response 500 (message "Failed to update contact"), d)
              end
          | None => (Response 500 (message "Failed to update contact"), d)
          end
      end
  | None => (Response 500 (message "Failed to update contact"), d)
  end.

(** The predicate of the [filter] in [router.delete]: [c.id !== id]. *)
Definition keeps (id : string) (c : obj) : Prop :=
  strict_eq_str (c !! "id") id = false.

#[global] Instance keeps_dec id c : Decision (keeps id c).
Proof. unfold keeps. apply _. Defined.

(** [router.delete("/:id")]. *)
Definition router_delete (id : string) (d : disk) : response * disk :=
  match loadContacts d with
  | Some contacts =>
      match saveContacts (filter (keeps id) contacts) d with
      | Some d' => (Response 200 (message "Deleted"), d')
      | None => (Response 500 (message "Failed to delete contact"), d)
      end
  | None => (Response 500 (message "Failed to delete contact"), d)
  end.

(** Sample data: the records of the repository's API tests. *)
Definition alice_body : obj :=
  {[ "name" := JStr "Alice"; "contactPoint" := JStr "Email";
     "contactDetail" := JStr "alice@example.com"; "notes" := JArr [];
     "dateCreated" := JStr "2025-01-01"; "remindDate" := JStr "2025-09-30";
     "remindTime" := JStr "12:00" ]}.

Definition eve_body : obj :=
  {[ "name" := JStr "Eve"; "contactPoint" := JStr "Phone";
     "contactDetail" := JStr "999"; "dateCreated" := JStr "2025-01-01";
     "remindDate" := JStr "2025-09-25"; "remindTime" := JStr "09:00" ]}.

Definition charlie : obj :=
  {[ "id" := JStr "1759233600000"; "name" := JStr "Charlie";
     "contactPoint" := JStr "Text"; "contactDetail" := JStr "555";
     "notes" := JArr []; "dateCreated" := JStr "2025-01-01";
     "remindDate" := JStr "2025-11-01"; "remindTime" := JStr "14:00" ]}.

Definition new_note : json :=
  JObj {[ "content" := JStr "New Note"; "date" := JStr "2025-09-20";
          "time" := JStr "08:00" ]}.

Definition own_id_body : obj :=
  {[ "id" := JStr "my-own-id"; "name" := JStr "Mallory" ]}.

Definition rename_patch : obj := {[ "name" := JStr "Charlie Updated" ]}.
Definition notes_patch : obj := {[ "notes" := JArr [new_note] ]}.

Definition empty_disk : disk := Disk (Some []) true.
Definition charlie_disk : disk := Disk (Some [charlie]) true.


(** ** Server: the router *)

(** The four routes registered on the router. *)
Inductive request : Type :=
  | Get
  | Post (now : Z) (req_body : obj)
  | Put (id : string) (req_body : obj)
  | Delete (id : string).

(** The router dispatching one request to its handler. *)
Definition handle (r : request) (d : disk) : response * disk :=
  match r with
  | Get => router_get d
  | Post now req_body => router_post now req_body d
  | Put id req_body => router_put id req_body d
  | Delete id => router_delete id d
  end.

(** Requests are served one at a time, each to completion. *)
Fixpoint serve (rs : list request) (d : disk) : list response * disk :=
  match rs with
  | [] => ([], d)
  | r :: rest =>
      let '(res, d') := handle r d in
      let '(ress, d'') := serve rest d' in
      (res :: ress, d'')
  end.

(** Two records that carry Charlie's id: a store with a duplicate. *)
Definition charlie_copy : obj :=
  {[ "id" := JStr "1759233600000"; "name" := JStr "Charlie II";
     "notes" := JArr [] ]}.

Definition dave : obj :=
  {[ "id" := JStr "1759233600777"; "name" := JStr "Dave";
     "notes" := JArr [] ]}.

Definition crowded_disk : disk := Disk (Some [dave; charlie; charlie_copy]) true.
Definition readonly_disk : disk := Disk (Some [charlie]) false.
Definition broken_disk : disk := Disk None true.

Definition full_patch : obj :=
  {[ "name" := JStr "Charles"; "contactPoint" := JStr "Email";
     "notes" := JArr [new_note]; "nickname" := JStr "Chuck" ]}.

End Server.

(** ** The JavaScript platform *)

(** The client relies on two built-ins whose behaviour is the engine's, not
    this repository's.  [Date_parse s] is [new Date(s).getTime()], in
    milliseconds, with [None] for [NaN] (an invalid date);
    [Array_sort cmp l] is [[...l].sort(cmp)], where the comparator may
    answer [NaN], again [None]. *)
Class Platform : Type := {
  Date_parse : string → option Z;
  Array_sort : ∀ A : Type, (A → A → option Z) → list A → list A
}.
Arguments Array_sort {_ _} _ _.

(** [SortCompare] of ECMAScript: a comparator answer of [NaN] counts as
    [+0]. *)
Definition SortCompare {A} (cmp : A → A → option Z) (a b : A) : Z :=
  default 0 (cmp a b).

(** A comparator is consistent on a set of values (ECMAScript,
    [Array.prototype.sort]) when it orders them into totally ordered
    equivalence classes. *)
Record consistent {A} (cmp : A → A → option Z) (l : list A) : Prop := {
  cons_refl : ∀ a, a ∈ l → SortCompare cmp a a = 0;
  cons_flip : ∀ a b, a ∈ l → b ∈ l →
    (SortCompare cmp a b < 0 ↔ 0 < SortCompare cmp b a);
  cons_eq : ∀ a b c, a ∈ l → b ∈ l → c ∈ l →
    SortCompare cmp a b = 0 → SortCompare cmp b c = 0 →
    SortCompare cmp a c = 0;
  cons_lt : ∀ a b c, a ∈ l → b ∈ l → c ∈ l →
    SortCompare cmp a b < 0 → SortCompare cmp b c < 0 →
    SortCompare cmp a c < 0
}.

(** What ECMAScript promises of [Array.prototype.sort]: the result holds
    the same elements, and it is in comparator order when the comparator is
    consistent on them.  Otherwise the order is up to the engine. *)
Class SortContract (P : Platform) : Prop := {
  sort_perm : ∀ A (cmp : A → A → option Z) l, Array_sort cmp l ≡ₚ l;
  sort_sorted : ∀ A (cmp : A → A → option Z) l,
    consistent cmp l →
    StronglySorted (λ a b, SortCompare cmp a b ≤ 0) (Array_sort cmp l)
}.

Module Client.

(** ** Client: data *)

Record ContactNote : Type := {
  content : string;
  date : string;
  time : string
}.

(** [ContactData]; [id] is optional in the interface. *)
Record ContactData : Type := {
  id : option string;
  name : string;
  contactPoint : string;
  contactDetail : string;
  notes : list ContactNote;
  dateCreated : string;
  remindDate : string;
  remindTime : string
}.

#[global] Instance ContactNote_eq_dec : EqDecision ContactNote.
Proof. solve_decision. Defined.
#[global] Instance ContactData_eq_dec : EqDecision ContactData.
Proof. solve_decision. Defined.

(** The two pieces of React state the claims are about. *)
Record state : Type := State {
  contacts : list ContactData;
  shownReminders : gset string
}.

(** One call of [toastr.info(text, title)].  [about] records the cache
    entry whose callback made the call; toastr does not see it. *)
Record notification : Type := {
  about : ContactData;
  text : string;
  title : string
}.

(** The value [contact.id] when it is truthy: [undefined] and the empty
    string are not. *)
Definition truthy (i : option string) : option string :=
  match i with
  | Some s => if bool_decide (s = "") then None else Some s
  | None => None
  end.

Section WithPlatform.
Context {P : Platform}.

(** [new Date(`${remindDate}T${remindTime}`).getTime()]. *)
Definition remindDateTime (c : ContactData) : option Z :=
  Date_parse (remindDate c +:+ "T" +:+ remindTime c).

(** [remindDateTime.getTime() - now.getTime()]; [NaN] when the date is
    invalid. *)
Definition diff (now : Z) (c : ContactData) : option Z :=
  t ← remindDateTime c; Some (t - now).

(** [diff >= 0 && diff < 60000]; a comparison with [NaN] is false. *)
Definition in_window (d : option Z) : bool :=
  match d with
  | Some x => (0 <=? x) && (x <? 60000)
  | None => false
  end.

Definition reminder (c : ContactData) : notification :=
  {| about := c;
     text := "Reminder: Contact " +:+ name c +:+ " via " +:+ contactPoint c
             +:+ " (" +:+ contactDetail c +:+ ")";
     title := "Friend Reminder" |}.

(** The body of the [forEach] callback of the reminder checker, run
    against the [shownReminders] its closure captured.  [Some n] when it
    calls [toastr.info] (and queues the [setShownReminders] updater),
    [None] when it does nothing. *)
Definition check (now : Z) (shown : gset string) (c : ContactData)
    : option notification :=
  match truthy (id c) with
  | None => None
  | Some i =>
      if in_window (diff now c) && negb (bool_decide (i ∈ shown))
      then Some (reminder c)
      else None
  end.

(** The updater queued with a notification:
    [(prev) => new Set(prev).add(contact.id!)]. *)
Definition add_shown (prev : gset string) (n : notification) : gset string :=
  match id (about n) with
  | Some i => {[ i ]} ∪ prev
  | None => prev
  end.

(** One run of the interval callback at clock reading [now]: every
    callback sees the same captured [shownReminders]; the queued updaters
    are applied, in order, once the loop is over. *)
Definition tick (now : Z) (st : state) : list notification * state :=
  let log := omap (check now (shownReminders st)) (contacts st) in
  (log, State (contacts st) (foldl add_shown (shownReminders st) log)).

(** [handleAddContact]. *)
Definition handleAddContact (contact : ContactData) (st : state) : state :=
  State (contacts st ++ [contact]) (shownReminders st).

(** [handleUpdateContact]: [prev.map((c) => c.id === contact.id ? contact : c)]. *)
Definition handleUpdateContact (contact : ContactData) (st : state) : state :=
  State
    ((λ c, if bool_decide (id c = id contact) then contact else c)
       <$> contacts st)
    (shownReminders st).

(** [handleDeleteContact]; [ok] is [res.ok] of the DELETE request.  A
    failed request throws before the cache is touched. *)
Definition handleDeleteContact (i : string) (ok : bool) (st : state) : state :=
  if ok then State (filter (λ c, id c ≠ Some i) (contacts st)) (shownReminders st)
  else st.

(** [setContacts(normalized)] at the end of a successful fetch.  The
    normalisation of [notes] has already happened in a [ContactData],
    whose notes are a list. *)
Definition setContacts (fetched : list ContactData) (st : state) : state :=
  State fetched (shownReminders st).

(** What can happen during a session. *)
Inductive action : Type :=
  | Fetched (fetched : list ContactData)
  | Added (contact : ContactData)
  | Updated (contact : ContactData)
  | Deleted (i : string) (ok : bool)
  | Tick (now : Z).

Definition step (a : action) (st : state) : list notification * state :=
  match a with
  | Fetched l => ([], setContacts l st)
  | Added c => ([], handleAddContact c st)
  | Updated c => ([], handleUpdateContact c st)
  | Deleted i ok => ([], handleDeleteContact i ok st)
  | Tick now => tick now st
  end.

(** A session: the notifications raised, in order, and the final state. *)
Fixpoint run (acts : list action) (st : state) : list notification * state :=
  match acts with
  | [] => ([], st)
  | a :: rest =>
      let '(log, st') := step a st in
      let '(log', st'') := run rest st' in
      (log ++ log', st'')
  end.

(** The truthy ids held by the cache. *)
Definition cached_ids (st : state) : list string :=
  omap (λ c, truthy (id c)) (contacts st).

(** No two cache entries share an id whenever the checker runs. *)
Fixpoint distinct_at_ticks (acts : list action) (st : state) : bool :=
  match acts with
  | [] => true
  | a :: rest =>
      match a with
      | Tick _ => bool_decide (NoDup (cached_ids st))
      | _ => true
      end && distinct_at_ticks rest (step a st).2
  end.

(** The notifications of a log raised for id [i]. *)
Definition raised_for (i : string) (log : list notification) : list notification :=
  filter (λ n, id (about n) = Some i) log.

(** The comparator of the display sort. *)
Definition by_remindDateTime (a b : ContactData) : option Z :=
  ta ← remindDateTime a; tb ← remindDateTime b; Some (ta - tb).

(** The order in which the contact list is rendered:
    [[...contacts].sort(...)]. *)
Definition displayed (st : state) : list ContactData :=
  Array_sort by_remindDateTime (contacts st).

End WithPlatform.

(** Sample data: the contact of the API tests, as the client holds it,
    and variations of it. *)
Definition alice : ContactData :=
  {| id := Some "1759233600000"; name := "Alice"; contactPoint := "Email";
     contactDetail := "alice@example.com"; notes := [];
     dateCreated := "2025-01-01"; remindDate := "2025-09-30";
     remindTime := "12:00" |}.

Definition bob : ContactData :=
  {| id := Some "1759233600001"; name := "Bob"; contactPoint := "Phone";
     contactDetail := "123"; notes := [];
     dateCreated := "2025-01-01"; remindDate := "2025-10-01";
     remindTime := "10:00" |}.

(** A contact saved with its reminder fields left blank. *)
Definition undated : ContactData :=
  {| id := Some "1759233600002"; name := "Carol"; contactPoint := "Text";
     contactDetail := "555"; notes := [];
     dateCreated := "2025-01-01"; remindDate := ""; remindTime := "" |}.

(** A second cache entry with Alice's id. *)
Definition alice_twin : ContactData :=
  {| id := Some "1759233600000"; name := "Alice B"; contactPoint := "Phone";
     contactDetail := "777"; notes := [];
     dateCreated := "2025-01-02"; remindDate := "2025-09-30";
     remindTime := "12:00" |}.

(** Alice after her reminder was moved to the next day. *)
Definition alice_later : ContactData :=
  {| id := Some "1759233600000"; name := "Alice"; contactPoint := "Email";
     contactDetail := "alice@example.com"; notes := [];
     dateCreated := "2025-01-01"; remindDate := "2025-10-01";
     remindTime := "12:00" |}.

(** 2025-09-30 11:59:30 and 11:59:45 on the reference clock, and the same
    times one day later. *)
Definition t_115930 : Z := 1759233570000.
Definition t_115945 : Z := 1759233585000.
Definition day : Z := 86400000.

(** ** Client: the rest of [App] *)

(** The normalisation applied to the array that [fetchContacts] reads
    from the response, record by record:
    [{...c, notes: Array.isArray(c.notes) ? c.notes : []}]. *)
Definition normalized (fetched : list obj) : list obj :=
  map (λ c, set_prop "notes" (array_or (c !! "notes") (Some (JArr []))) c)
      fetched.

(** [fetchContacts]: [ok] is [res.ok].  [Some l] is the argument of
    [setContacts]; [None] is the thrown error, which is logged and leaves
    the cache as it is. *)
Definition fetchContacts (ok : bool) (fetched : list obj) : option (list obj) :=
  if ok then Some (normalized fetched) else None.

(** What [JSON.stringify] writes for a note and for a contact.  A field
    that is [undefined] is left out. *)
Definition note_json (n : ContactNote) : json :=
  JObj {[ "content" := JStr (content n); "date" := JStr (date n);
          "time" := JStr (time n) ]}.

Definition contact_json (c : ContactData) : obj :=
  set_prop "id" (JStr <$> id c)
    {[ "name" := JStr (name c); "contactPoint" := JStr (contactPoint c);
       "contactDetail" := JStr (contactDetail c);
       "notes" := JArr (note_json <$> notes c);
       "dateCreated" := JStr (dateCreated c);
       "remindDate" := JStr (remindDate c);
       "remindTime" := JStr (remindTime c) ]}.

(** The state behind the note form: which forms are open, and the text
    typed so far. *)
Record forms : Type := Forms {
  noteForms : gmap string bool;
  noteInput : string
}.

(** [noteForms[id]] read as a condition: a missing key is falsy. *)
Definition form_open (i : string) (f : forms) : bool :=
  default false (noteForms f !! i).

(** [toggleNoteForm]: [{...prev, [id]: !prev[id]}], then the input is
    cleared. *)
Definition toggleNoteForm (i : string) (f : forms) : forms :=
  Forms (<[i := negb (form_open i f)]> (noteForms f)) "".

(** The contact that [handleNewNote] sends:
    [{...contact, notes: [...contact.notes, note]}]. *)
Definition updatedContact (contact : ContactData) (note : ContactNote)
    : ContactData :=
  {| id := id contact; name := name contact;
     contactPoint := contactPoint contact;
     contactDetail := contactDetail contact;
     notes := notes contact ++ [note];
     dateCreated := dateCreated contact;
     remindDate := remindDate contact;
     remindTime := remindTime contact |}.

(** The id segment of the URL [`/api/friend-contacts/${contact.id}`]: an
    [undefined] id is spelled out by the template. *)
Definition url_id (contact : ContactData) : string :=
  default "undefined" (id contact).

(** The request made by [handleNewNote]: the id in the URL and the body. *)
Definition handleNewNote_request (contact : ContactData) (note : ContactNote)
    : string * obj :=
  (url_id contact, contact_json (updatedContact contact note)).

(** What [handleNewNote] does with the answer: on [res.ok], the contact of
    the response replaces the cache entry and the note form is toggled;
    otherwise the error is logged and nothing changes. *)
Definition handleNewNote_response (contact : ContactData) (ok : bool)
    (answered : ContactData) (st : state) (f : forms) : state * forms :=
  if ok then (handleUpdateContact answered st, toggleNoteForm (url_id contact) f)
  else (st, f).

Definition first_note : ContactNote :=
  {| content := "Called back"; date := "2025-09-20"; time := "08:00:00" |}.

End Client.

(** ** A reference platform *)

(** An instance of the platform for concrete runs: ISO local date-times
    [YYYY-MM-DDTHH:MM] and [YYYY-MM-DDTHH:MM:SS] read in a zone of offset
    zero, and a stable insertion sort. *)
Module Reference.

Definition digit (a : Ascii.ascii) : option Z :=
  let n := Z.of_nat (Ascii.nat_of_ascii a) in
  if (48 <=? n) && (n <=? 57) then Some (n - 48) else None.

Fixpoint number_go (acc : Z) (s : string) : option Z :=
  match s with
  | EmptyString => Some acc
  | String a rest => d ← digit a; number_go (10 * acc + d) rest
  end.

(** The number written in the [n] characters of [s] from position [i]. *)
Definition field (i n : nat) (s : string) : option Z :=
  let sub := String.substring i n s in
  if bool_decide (String.length sub = n) then number_go 0 sub else None.

Definition require (b : bool) : option unit :=
  if b then Some () else None.

Definition sep (i : nat) (a : Ascii.ascii) (s : string) : option unit :=
  require (bool_decide (String.get i s = Some a)).

(** Days from 1970-01-01 to the given civil date (proleptic Gregorian). *)
Definition days_from_civil (y m d : Z) : Z :=
  let y' := if m <=? 2 then y - 1 else y in
  let era := y' `div` 400 in
  let yoe := y' - era * 400 in
  let mp := if 2 <? m then m - 3 else m + 9 in
  let doy := (153 * mp + 2) `div` 5 + d - 1 in
  let doe := yoe * 365 + yoe `div` 4 - yoe `div` 100 + doy in
  era * 146097 + doe - 719468.

Definition in_range (lo hi x : Z) : option unit :=
  require ((lo <=? x) && (x <=? hi)).

Definition parse (s : string) : option Z :=
  y ← field 0 4 s; _ ← sep 4 "-"%char s;
  m ← field 5 2 s; _ ← sep 7 "-"%char s;
  d ← field 8 2 s; _ ← sep 10 "T"%char s;
  hh ← field 11 2 s; _ ← sep 13 ":"%char s;
  mm ← field 14 2 s;
  ss ← (if bool_decide (String.length s = 16%nat) then Some 0
        else _ ← sep 16 ":"%char s;
             _ ← require (bool_decide (String.length s = 19%nat));
             field 17 2 s);
  _ ← in_range 1 12 m; _ ← in_range 1 31 d;
  _ ← in_range 0 23 hh; _ ← in_range 0 59 mm; _ ← in_range 0 59 ss;
  Some ((((days_from_civil y m d * 24 + hh) * 60 + mm) * 60 + ss) * 1000).

Section Sort.
Context {A : Type} (cmp : A → A → option Z).

Fixpoint insert (x : A) (l : list A) : list A :=
  match l with
  | [] => [x]
  | y :: rest =>
      if SortCompare cmp x y <=? 0 then x :: y :: rest
      else y :: insert x rest
  end.

Definition sort (l : list A) : list A := foldr insert [] l.

End Sort.

#[global] Instance platform : Platform := {|
  Date_parse := parse;
  Array_sort := @sort
|}.

End Reference.

(** * Properties of the server *)

Section ServerFacts.
Import Server.

Implicit Types (c e u : obj) (d : disk) (v : option json) (k : string).

Lemma lookup_set_prop k k' v (o : obj) :
  set_prop k v o !! k' = if decide (k = k') then v else o !! k'.
Proof.
  unfold set_prop. destruct v as [x|].
  - rewrite lookup_insert. by case_decide.
  - rewrite lookup_delete. by case_decide.
Qed.

Lemma lookup_spread (a b : obj) k :
  spread a b !! k = match b !! k with Some x => Some x | None => a !! k end.
Proof.
  unfold spread. rewrite lookup_union.
  destruct (b !! k), (a !! k); done.
Qed.

Lemma isArray_array_or v w :
  isArray w = true → isArray (array_or v w) = true.
Proof. unfold array_or. destruct (isArray v) eqn:E; auto. Qed.

Lemma normalize_notes c : isArray (normalize c !! "notes") = true.
Proof.
  unfold normalize. rewrite lookup_set_prop. case_decide; [|done].
  by apply isArray_array_or.
Qed.

Lemma normalize_other c k : k ≠ "notes" → normalize c !! k = c !! k.
Proof.
  intros Hk. unfold normalize. rewrite lookup_set_prop.
  case_decide; congruence.
Qed.

(** Normalising a record that already holds an array of notes changes
    nothing. *)
Lemma normalize_fixed c : isArray (c !! "notes") = true → normalize c = c.
Proof.
  intros Hc. unfold normalize, array_or. rewrite Hc.
  destruct (c !! "notes") as [x|] eqn:E; [|done].
  simpl. by apply insert_id.
Qed.

Lemma map_normalize_fixed (l : list obj) :
  Forall (λ c, isArray (c !! "notes") = true) l → map normalize l = l.
Proof.
  induction 1 as [|c l Hc _ IH]; [done|].
  simpl. by rewrite normalize_fixed, IH.
Qed.

Lemma loadContacts_notes d contacts :
  loadContacts d = Some contacts →
  Forall (λ c, isArray (c !! "notes") = true) contacts.
Proof.
  unfold loadContacts. destruct (data d) as [l|]; [|done].
  intros [= <-]. apply Forall_forall. intros c Hc.
  apply list_elem_of_In, in_map_iff in Hc as (c0 & <- & _).
  apply normalize_notes.
Qed.

(** Reading back what [saveContacts] wrote. *)
Lemma load_saved d d' contacts :
  saveContacts contacts d = Some d' →
  Forall (λ c, isArray (c !! "notes") = true) contacts →
  data d' = Some contacts ∧ loadContacts d' = Some contacts.
Proof.
  unfold saveContacts. destruct (writable d); [|done].
  intros [= <-] Hall. split; [done|].
  unfold loadContacts. simpl. by rewrite map_normalize_fixed.
Qed.

Lemma findIndex_Some id (l : list obj) i :
  findIndex id l = Some i →
  ∃ c, l !! i = Some c ∧ c !! "id" = Some (JStr id).
Proof.
  revert i. induction l as [|c l IH]; intros i; [done|].
  simpl. destruct (strict_eq_str (c !! "id") id) eqn:E.
  - intros [= <-]. exists c. split; [done|].
    unfold strict_eq_str in E.
    destruct (c !! "id") as [[]|]; try done.
    by apply bool_decide_eq_true in E as ->.
  - destruct (findIndex id l) as [j|]; [|done].
    intros [= <-]. by apply IH.
Qed.

Lemma findIndex_None id (l : list obj) :
  findIndex id l = None ↔ ∀ c, c ∈ l → c !! "id" ≠ Some (JStr id).
Proof.
  induction l as [|c l IH]; simpl.
  - split; [|done]. intros _ c Hc. by apply elem_of_nil in Hc.
  - destruct (strict_eq_str (c !! "id") id) eqn:E.
    + split; [done|]. intros H. exfalso.
      unfold strict_eq_str in E.
      destruct (c !! "id") as [[]|] eqn:Ec; try done.
      apply bool_decide_eq_true in E as ->.
      by apply (H c); [left|].
    + destruct (findIndex id l) as [j|] eqn:Ej; simpl.
      * split; [done|]. intros H.
        assert (Some j = None) as Hj; [|done].
        apply IH. intros e He. apply H. by right.
      * split; [|done]. intros _ e [->|He]%elem_of_cons.
        -- intros Hc. rewrite Hc in E. simpl in E.
           by rewrite bool_decide_eq_false in E.
        -- by apply IH.
Qed.

(** The index found is the first one whose record carries the id. *)
Lemma findIndex_first id (l : list obj) i :
  findIndex id l = Some i ↔
  (∃ c, l !! i = Some c ∧ c !! "id" = Some (JStr id)) ∧
  (∀ j c, (j < i)%nat → l !! j = Some c → c !! "id" ≠ Some (JStr id)).
Proof.
  revert i. induction l as [|c l IH]; intros i; simpl.
  - split; [done|]. by intros [(c & Hc & _) _].
  - destruct (strict_eq_str (c !! "id") id) eqn:E.
    + assert (c !! "id" = Some (JStr id)) as Hc.
      { unfold strict_eq_str in E. destruct (c !! "id") as [[]|]; try done.
        by apply bool_decide_eq_true in E as ->. }
      split.
      * intros [= <-]. split; [by exists c|]. intros j e Hj. lia.
      * intros [_ Hfirst]. destruct i as [|i]; [done|].
        destruct (Hfirst 0%nat c); [lia|done..].
    + assert (c !! "id" ≠ Some (JStr id)) as Hc.
      { intros Hc. rewrite Hc in E. simpl in E.
        by rewrite bool_decide_eq_false in E. }
      split.
      * destruct (findIndex id l) as [j|] eqn:Ej; [|done].
        intros [= <-]. destruct (proj1 (IH j) eq_refl) as [Hex Hfirst].
        split; [done|]. intros [|j'] e Hj He; simpl in He.
        -- by injection He as <-.
        -- apply (Hfirst j' e); [lia|done].
      * intros [(e & He & Heid) Hfirst]. destruct i as [|i]; simpl in He.
        { injection He as <-. done. }
        assert (findIndex id l = Some i) as ->; [|done].
        apply IH. split; [by exists e|].
        intros j e' Hj He'. apply (Hfirst (S j) e'); [lia|done].
Qed.

Lemma keeps_iff id c : keeps id c ↔ c !! "id" ≠ Some (JStr id).
Proof.
  unfold keeps, strict_eq_str.
  destruct (c !! "id") as [[]|]; try (split; [congruence|done]).
  rewrite bool_decide_eq_false. split; congruence.
Qed.

(** How a successful update came about. *)
Lemma router_put_ok id patch d res d' :
  router_put id patch d = (res, d') → status res = 200 →
  ∃ contacts idx existing,
    loadContacts d = Some contacts ∧ findIndex id contacts = Some idx ∧
    contacts !! idx = Some existing ∧
    saveContacts (<[idx := updated existing patch]> contacts) d = Some d' ∧
    res = Response 200 (contact_body (updated existing patch)).
Proof.
  unfold router_put.
  destruct (loadContacts d) as [contacts|]; [|by intros [= <- <-]].
  destruct (findIndex id contacts) as [idx|] eqn:Ei; [|by intros [= <- <-]].
  destruct (contacts !! idx) as [existing|] eqn:Ee; [|by intros [= <- <-]].
  destruct (saveContacts _ d) as [d1|] eqn:Es; [|by intros [= <- <-]].
  intros [= <- <-] _. by exists contacts, idx, existing.
Qed.

(** How a successful creation came about. *)
Lemma router_post_ok now req d res d' :
  router_post now req d = (res, d') → status res = 201 →
  ∃ contacts,
    loadContacts d = Some contacts ∧
    saveContacts (contacts ++ [newContact now req]) d = Some d' ∧
    res = Response 201 (contact_body (newContact now req)).
Proof.
  unfold router_post.
  destruct (loadContacts d) as [contacts|]; [|by intros [= <- <-]].
  simpl. destruct (saveContacts _ d) as [d1|] eqn:Es; [|by intros [= <- <-]].
  intros [= <- <-] _. by exists contacts.
Qed.

Lemma updated_notes existing patch :
  isArray (existing !! "notes") = true →
  isArray (updated existing patch !! "notes") = true.
Proof.
  intros He. unfold updated. rewrite lookup_set_prop.
  case_decide; [|done]. by apply isArray_array_or.
Qed.

Lemma newContact_notes now req :
  isArray (newContact now req !! "notes") = true.
Proof.
  unfold newContact. rewrite lookup_set_prop.
  case_decide; [|done]. by apply isArray_array_or.
Qed.

Lemma toString_nonempty (ms : Z) : toString ms ≠ "".
Proof.
  assert (∀ x s, s ≠ "" → pretty_N_go x s ≠ "") as Hgo.
  { intros x. induction (N.lt_wf_0 x) as [x _ IH]; intros s Hs.
    destruct (decide (x = 0%N)) as [->|Hx].
    - by rewrite pretty_N_go_0.
    - rewrite pretty_N_go_step by lia.
      apply IH; [apply N.div_lt; lia|done]. }
  assert (∀ p : positive, pretty p ≠ "") as Hpos.
  { intros p. unfold pretty, pretty_positive, pretty, pretty_N.
    case_decide; [done|].
    rewrite pretty_N_go_step by lia. by apply Hgo. }
  unfold toString, pretty, pretty_Z.
  destruct ms as [|p|p]; [done|apply Hpos|done].
Qed.

End ServerFacts.

Section ServerClaims.
Import Server.

Implicit Types (c e u : obj) (d : disk) (k : string).

(** C1, as stated, fails: a patch that carries an [id] field replaces the
    id of the record it is merged into.  Updating Charlie with
    [{id: "42"}] returns and stores a record whose id is ["42"]. *)
Lemma put_overwrites_id_counterexample :
  ∃ u,
    router_put "1759233600000" {[ "id" := JStr "42" ]} charlie_disk
      = (Response 200 (contact_body u), Disk (Some [u]) true) ∧
    charlie !! "id" = Some (JStr "1759233600000") ∧
    u !! "id" = Some (JStr "42").
Proof. eexists. split; [vm_compute; reflexivity|]. by vm_compute. Qed.

(** C1 (amended): for every stored contact and every update patch that
    has no [id] field, or whose [id] field repeats the id of the request,
    a successful update returns and persists a merged record with the
    same id as the pre-update record. *)
Theorem put_preserves_id id patch d res d' :
  patch !! "id" = None ∨ patch !! "id" = Some (JStr id) →
  router_put id patch d = (res, d') → status res = 200 →
  ∃ contacts idx existing u,
    loadContacts d = Some contacts ∧ contacts !! idx = Some existing ∧
    res = Response 200 (contact_body u) ∧
    loadContacts d' = Some (<[idx := u]> contacts) ∧
    existing !! "id" = Some (JStr id) ∧ u !! "id" = existing !! "id".
Proof.
  intros Hid Hput Hok.
  destruct (router_put_ok _ _ _ _ _ Hput Hok)
    as (contacts & idx & existing & Hl & Hi & He & Hs & ->).
  exists contacts, idx, existing, (updated existing patch).
  destruct (findIndex_Some _ _ _ Hi) as (c & Hc & Hcid).
  assert (c = existing) as -> by congruence.
  pose proof (loadContacts_notes _ _ Hl) as Hall.
  apply load_saved in Hs as [_ Hs].
  - repeat split; try done.
    unfold updated. rewrite lookup_set_prop, lookup_spread.
    case_decide; [done|]. rewrite Hcid. by destruct Hid as [->| ->].
  - apply Forall_insert; [done|]. apply updated_notes.
    by apply (Forall_lookup_1 _ _ _ _ Hall He).
Qed.

Lemma put_preserves_id_witness :
  ∃ contacts idx existing u,
    loadContacts charlie_disk = Some contacts ∧
    contacts !! idx = Some existing ∧
    (router_put "1759233600000" rename_patch charlie_disk).1
      = Response 200 (contact_body u) ∧
    loadContacts (router_put "1759233600000" rename_patch charlie_disk).2
      = Some (<[idx := u]> contacts) ∧
    existing !! "id" = Some (JStr "1759233600000") ∧
    u !! "id" = existing !! "id".
Proof.
  apply (put_preserves_id "1759233600000" rename_patch charlie_disk).
  - left. reflexivity.
  - vm_compute. reflexivity.
  - reflexivity.
Defined.

(** C2: a successful update with a single-field patch [{field: v}]
    acts on the stored record of the contact, the first record that
    carries the id of the request.  It leaves every other field of that
    record as it was, sets [field] to [v] when it is not [notes],
    replaces [notes] by [v] when [field] is [notes] and [v] is an array,
    and leaves the whole record as it was when [field] is [notes] and [v]
    is not an array.  The other records of the store are untouched. *)
Theorem put_single_field id field v d res d' :
  router_put id {[ field := v ]} d = (res, d') → status res = 200 →
  ∃ contacts idx existing u,
    loadContacts d = Some contacts ∧ contacts !! idx = Some existing ∧
    existing !! "id" = Some (JStr id) ∧
    (∀ j c, (j < idx)%nat → contacts !! j = Some c →
            c !! "id" ≠ Some (JStr id)) ∧
    res = Response 200 (contact_body u) ∧
    loadContacts d' = Some (<[idx := u]> contacts) ∧
    (∀ j, j ≠ idx → <[idx := u]> contacts !! j = contacts !! j) ∧
    (∀ k, k ≠ field → u !! k = existing !! k) ∧
    (field ≠ "notes" → u !! field = Some v) ∧
    (field = "notes" → isArray (Some v) = true → u !! "notes" = Some v) ∧
    (field = "notes" → isArray (Some v) = false → u = existing).
Proof.
  intros Hput Hok.
  destruct (router_put_ok _ _ _ _ _ Hput Hok)
    as (contacts & idx & existing & Hl & Hi & He & Hs & ->).
  exists contacts, idx, existing, (updated existing {[ field := v ]}).
  pose proof (loadContacts_notes _ _ Hl) as Hall.
  assert (isArray (existing !! "notes") = true) as Hen
    by apply (Forall_lookup_1 _ _ _ _ Hall He).
  apply load_saved in Hs as [_ Hs];
    [|by apply Forall_insert; [|apply updated_notes]].
  assert (∀ k, k ≠ field →
            updated existing {[ field := v ]} !! k = existing !! k) as Hframe.
  { intros k Hk. unfold updated.
    rewrite lookup_set_prop, lookup_spread.
    case_decide as Hn; [subst k|];
      rewrite lookup_singleton_ne by congruence; done. }
  apply findIndex_first in Hi as [(c & Hc & Hcid) Hfirst].
  assert (c = existing) as -> by congruence.
  repeat split; try done.
  - intros j Hj. by apply list_lookup_insert_ne.
  - intros Hf. unfold updated.
    rewrite lookup_set_prop, lookup_spread, lookup_singleton_eq.
    case_decide; [congruence|done].
  - intros -> Hv. unfold updated, array_or.
    rewrite lookup_set_prop, lookup_singleton_eq, Hv. by case_decide.
  - intros -> Hv. apply map_eq. intros k.
    destruct (decide (k = "notes")) as [->|Hk]; [|by apply Hframe].
    unfold updated, array_or.
    rewrite lookup_set_prop, lookup_singleton_eq, Hv. by case_decide.
Qed.

(** Charlie renamed in a store where Dave's record comes first. *)
Lemma put_single_field_witness :
  ∃ contacts idx existing u,
    loadContacts crowded_disk = Some contacts ∧
    contacts !! idx = Some existing ∧
    existing !! "id" = Some (JStr "1759233600000") ∧
    (∀ j c, (j < idx)%nat → contacts !! j = Some c →
            c !! "id" ≠ Some (JStr "1759233600000")) ∧
    (router_put "1759233600000" rename_patch crowded_disk).1
      = Response 200 (contact_body u) ∧
    loadContacts (router_put "1759233600000" rename_patch crowded_disk).2
      = Some (<[idx := u]> contacts) ∧
    (∀ j, j ≠ idx → <[idx := u]> contacts !! j = contacts !! j) ∧
    (∀ k, k ≠ "name" → u !! k = existing !! k) ∧
    ("name" ≠ "notes" → u !! "name" = Some (JStr "Charlie Updated")) ∧
    ("name" = "notes" → isArray (Some (JStr "Charlie Updated")) = true →
       u !! "notes" = Some (JStr "Charlie Updated")) ∧
    ("name" = "notes" → isArray (Some (JStr "Charlie Updated")) = false →
       u = existing).
Proof.
  apply (put_single_field "1759233600000" "name" (JStr "Charlie Updated")
           crowded_disk).
  - vm_compute. reflexivity.
  - reflexivity.
Defined.

(** C3, as stated, fails: the minted id is the clock reading, and nothing
    compares it with the ids already stored.  Creating Eve at the reading
    that Charlie's id was minted from yields a second record with
    Charlie's id. *)
Lemma post_id_collides_counterexample :
  ∃ c,
    router_post 1759233600000 eve_body charlie_disk
      = (Response 201 (contact_body c), Disk (Some [charlie; c]) true) ∧
    eve_body !! "id" = None ∧
    c !! "id" = charlie !! "id".
Proof. eexists. split; [vm_compute; reflexivity|]. by vm_compute. Qed.

(** C3 (amended): for every create input without an [id] field and every
    store state, a successful create returns a contact whose id is the
    decimal rendering of the clock reading of the request; that id is
    non-empty, and it differs from the id of every stored contact whose
    id renders another clock reading. *)
Theorem post_mints_id now req d res d' :
  req !! "id" = None →
  router_post now req d = (res, d') → status res = 201 →
  ∃ contacts c,
    loadContacts d = Some contacts ∧
    res = Response 201 (contact_body c) ∧
    loadContacts d' = Some (contacts ++ [c]) ∧
    c !! "id" = Some (JStr (toString now)) ∧
    toString now ≠ "" ∧
    (∀ e t, e ∈ contacts → e !! "id" = Some (JStr (toString t)) →
            t ≠ now → e !! "id" ≠ c !! "id").
Proof.
  intros Hid Hpost Hok.
  destruct (router_post_ok _ _ _ _ _ Hpost Hok) as (contacts & Hl & Hs & ->).
  exists contacts, (newContact now req).
  pose proof (loadContacts_notes _ _ Hl) as Hall.
  apply load_saved in Hs as [_ Hs].
  2:{ apply Forall_app. split; [done|].
      apply Forall_singleton, newContact_notes. }
  assert (newContact now req !! "id" = Some (JStr (toString now))) as Hc.
  { unfold newContact. rewrite lookup_set_prop, lookup_spread, Hid.
    case_decide; [done|]. by rewrite lookup_singleton_eq. }
  repeat split; try done.
  - apply toString_nonempty.
  - intros e t _ He Ht. rewrite He, Hc. intros [= Heq].
    unfold toString in Heq. by apply (inj pretty) in Heq.
Qed.

Lemma post_mints_id_witness :
  ∃ contacts c,
    loadContacts charlie_disk = Some contacts ∧
    (router_post 1759233600001 eve_body charlie_disk).1
      = Response 201 (contact_body c) ∧
    loadContacts (router_post 1759233600001 eve_body charlie_disk).2
      = Some (contacts ++ [c]) ∧
    c !! "id" = Some (JStr (toString 1759233600001)) ∧
    toString 1759233600001 ≠ "" ∧
    (∀ e t, e ∈ contacts → e !! "id" = Some (JStr (toString t)) →
            t ≠ 1759233600001 → e !! "id" ≠ c !! "id").
Proof.
  apply (post_mints_id 1759233600001 eve_body charlie_disk).
  - reflexivity.
  - vm_compute. reflexivity.
  - reflexivity.
Defined.

(** C6: for every readable store and every id that no stored contact
    carries, the update answers 404 and the data file is left exactly as
    it was. *)
Theorem put_unknown_id id patch d contacts :
  loadContacts d = Some contacts →
  (∀ c, c ∈ contacts → c !! "id" ≠ Some (JStr id)) →
  router_put id patch d = (Response 404 (message "Contact not found"), d).
Proof.
  intros Hl Hnone. unfold router_put. rewrite Hl.
  apply findIndex_None in Hnone. by rewrite Hnone.
Qed.

Lemma put_unknown_id_witness :
  router_put "invalid-id" {[ "name" := JStr "X" ]} charlie_disk
    = (Response 404 (message "Contact not found"), charlie_disk).
Proof.
  apply (put_unknown_id "invalid-id" {[ "name" := JStr "X" ]} charlie_disk
           [charlie]).
  - reflexivity.
  - intros c ->%list_elem_of_singleton. vm_compute. discriminate.
Defined.

(** C7: the delete never answers 404; on a readable and writable store it
    answers 200 whether or not the id is stored, a second delete of the
    same id answers 200 again and changes nothing, no record with that id
    is left after the first delete, and every record with another id is
    still stored. *)
Theorem delete_idempotent id d :
  status (router_delete id d).1 ≠ 404 ∧
  ∀ contacts, loadContacts d = Some contacts → writable d = true →
    let d1 := Disk (Some (filter (keeps id) contacts)) true in
    router_delete id d = (Response 200 (message "Deleted"), d1) ∧
    router_delete id d1 = (Response 200 (message "Deleted"), d1) ∧
    loadContacts d1 = Some (filter (keeps id) contacts) ∧
    (∀ c, c ∈ filter (keeps id) contacts → c !! "id" ≠ Some (JStr id)) ∧
    (∀ c, c ∈ contacts → c !! "id" ≠ Some (JStr id) →
          c ∈ filter (keeps id) contacts).
Proof.
  split.
  { unfold router_delete, saveContacts.
    destruct (loadContacts d); [|done]. by destruct (writable d). }
  intros contacts Hl Hw d1.
  assert (loadContacts d1 = Some (filter (keeps id) contacts)) as Hl1.
  { unfold loadContacts, d1. simpl. rewrite map_normalize_fixed; [done|].
    apply Forall_forall. intros c [_ Hc]%list_elem_of_filter.
    pose proof (loadContacts_notes _ _ Hl) as Hall.
    by apply (proj1 (Forall_forall _ _) Hall). }
  repeat split.
  - unfold router_delete, saveContacts. by rewrite Hl, Hw.
  - unfold router_delete, saveContacts. rewrite Hl1. simpl.
    by rewrite list_filter_filter_l.
  - done.
  - intros c [Hk _]%list_elem_of_filter. by apply keeps_iff.
  - intros c Hc Hne. apply list_elem_of_filter. split; [|done].
    by apply keeps_iff.
Qed.

Lemma delete_idempotent_witness :
  let id := "1759233600000" in
  let d1 := Disk (Some (filter (keeps id) [charlie])) true in
  router_delete id charlie_disk = (Response 200 (message "Deleted"), d1) ∧
  router_delete id d1 = (Response 200 (message "Deleted"), d1) ∧
  loadContacts d1 = Some (filter (keeps id) [charlie]) ∧
  (∀ c, c ∈ filter (keeps id) [charlie] → c !! "id" ≠ Some (JStr id)) ∧
  (∀ c, c ∈ [charlie] → c !! "id" ≠ Some (JStr id) →
        c ∈ filter (keeps id) [charlie]).
Proof.
  apply (proj2 (delete_idempotent "1759233600000" charlie_disk) [charlie]).
  - reflexivity.
  - reflexivity.
Defined.



(** C10: whenever the body of a create carries an [id] field, the contact
    returned and stored has the id of the body, not the one minted from
    the clock: the spread of the body comes after the minted id. *)
Theorem post_body_id_wins now req d v res d' :
  req !! "id" = Some v →
  router_post now req d = (res, d') → status res = 201 →
  ∃ contacts c,
    loadContacts d = Some contacts ∧
    res = Response 201 (contact_body c) ∧
    data d' = Some (contacts ++ [c]) ∧
    c !! "id" = Some v.
Proof.
  intros Hid Hpost Hok.
  destruct (router_post_ok _ _ _ _ _ Hpost Hok) as (contacts & Hl & Hs & ->).
  exists contacts, (newContact now req).
  unfold saveContacts in Hs. destruct (writable d); [|done].
  injection Hs as <-. repeat split; try done.
  unfold newContact. rewrite lookup_set_prop, lookup_spread, Hid.
  by case_decide.
Qed.

Lemma post_body_id_wins_witness :
  JStr "my-own-id" ≠ JStr (toString 1759233600001) ∧
  ∃ contacts c,
    loadContacts charlie_disk = Some contacts ∧
    (router_post 1759233600001 own_id_body charlie_disk).1
      = Response 201 (contact_body c) ∧
    data (router_post 1759233600001 own_id_body charlie_disk).2
      = Some (contacts ++ [c]) ∧
    c !! "id" = Some (JStr "my-own-id").
Proof.
  split; [vm_compute; discriminate|].
  apply (post_body_id_wins 1759233600001 own_id_body charlie_disk).
  - reflexivity.
  - vm_compute. reflexivity.
  - reflexivity.
Defined.

End ServerClaims.

(** * The reference sort meets the contract *)

Section ReferenceSort.
Context {A : Type} (cmp : A → A → option Z).

Local Abbreviation le := (λ a b, SortCompare cmp a b ≤ 0).

Lemma insert_perm x l : Reference.insert cmp x l ≡ₚ x :: l.
Proof.
  induction l as [|y l IH]; simpl; [done|].
  destruct (SortCompare cmp x y <=? 0); [done|].
  rewrite IH. apply Permutation_swap.
Qed.

Lemma reference_sort_perm l : Reference.sort cmp l ≡ₚ l.
Proof.
  induction l as [|x l IH]; simpl; [done|].
  by rewrite insert_perm, IH.
Qed.

(** On values it is consistent on, the comparator is a total preorder. *)
Lemma consistent_trans dom a b c :
  consistent cmp dom → a ∈ dom → b ∈ dom → c ∈ dom →
  le a b → le b c → le a c.
Proof.
  intros [_ Hflip Heq Hlt] Ha Hb Hc Hab Hbc. simpl in *.
  destruct (Z.lt_trichotomy (SortCompare cmp a c) 0) as [?|[?|Hac]]; [lia..|].
  exfalso. apply Hflip in Hac; [|done..].
  destruct (Z.lt_trichotomy (SortCompare cmp a b) 0) as [Hab'|[Hab'|?]];
    [| |lia].
  - pose proof (Hlt c a b Hc Ha Hb Hac Hab') as Hcb.
    apply Hflip in Hcb; [lia|done..].
  - destruct (Z.lt_trichotomy (SortCompare cmp b c) 0) as [Hbc'|[Hbc'|?]];
      [| |lia].
    + pose proof (Hlt b c a Hb Hc Ha Hbc' Hac) as Hba.
      apply Hflip in Hba; [lia|done..].
    + pose proof (Heq a b c Ha Hb Hc Hab' Hbc'). apply Hflip in Hac; [lia|done..].
Qed.

Lemma consistent_total dom a b :
  consistent cmp dom → a ∈ dom → b ∈ dom → ¬ le a b → le b a.
Proof.
  intros [_ Hflip _ _] Ha Hb Hab. simpl in *.
  destruct (Z.lt_trichotomy (SortCompare cmp b a) 0) as [?|[?|Hba]]; [lia..|].
  apply Hflip in Hba; [lia|done..].
Qed.

Lemma insert_sorted dom x l :
  consistent cmp dom → x ∈ dom → l ⊆ dom →
  StronglySorted le l → StronglySorted le (Reference.insert cmp x l).
Proof.
  intros Hcons Hx Hsub Hl.
  induction Hl as [|y l Hl IH Hy]; simpl.
  - repeat constructor.
  - assert (y ∈ dom) as Hyd by (apply Hsub; left).
    assert (l ⊆ dom) as Hld by (intros z Hz; apply Hsub; by right).
    destruct (Z.leb_spec (SortCompare cmp x y) 0) as [Hxy|Hxy].
    + constructor; [by constructor|].
      constructor; [done|].
      apply Forall_forall. intros z Hz.
      apply (consistent_trans dom x y z); try done; [by apply Hld|].
      by apply (proj1 (Forall_forall _ _) Hy).
    + constructor; [by apply IH|].
      rewrite insert_perm. constructor; [|done].
      apply (consistent_total dom x y); try done. simpl. lia.
Qed.

Lemma reference_sort_sorted l :
  consistent cmp l → StronglySorted le (Reference.sort cmp l).
Proof.
  intros Hcons.
  cut (∀ l', l' ⊆ l → StronglySorted le (Reference.sort cmp l')).
  { intros H. by apply H. }
  induction l' as [|x l' IH]; intros Hsub; simpl; [constructor|].
  apply (insert_sorted l); [done|apply Hsub; left| |].
  - intros z Hz. apply Hsub. right.
    by rewrite <-(reference_sort_perm l').
  - apply IH. intros z Hz. apply Hsub. by right.
Qed.

End ReferenceSort.

Lemma reference_contract : SortContract Reference.platform.
Proof.
  split; intros A cmp l.
  - apply reference_sort_perm.
  - apply reference_sort_sorted.
Qed.

(** * Properties of the client *)

Section ClientFacts.
Import Client.
Context {P : Platform}.

Implicit Types (c : ContactData) (n : notification) (st : state)
  (shown : gset string) (i : string).

Lemma truthy_Some (o : option string) i :
  truthy o = Some i ↔ o = Some i ∧ i ≠ "".
Proof.
  unfold truthy. destruct o as [s|]; [|by split; [|intros [? _]]].
  case_bool_decide as Hs.
  - split; [done|]. intros [[= ->] Hne]. by destruct Hne.
  - split; [by intros [= <-]|]. by intros [[= ->] _].
Qed.

Lemma in_window_true (d : option Z) :
  in_window d = true ↔ ∃ x, d = Some x ∧ 0 ≤ x < 60000.
Proof.
  unfold in_window. destruct d as [x|].
  - rewrite andb_true_iff, Z.leb_le, Z.ltb_lt. split.
    + intros Hx. by exists x.
    + by intros (y & [= <-] & Hy).
  - split; [done|]. by intros (x & Hx & _).
Qed.

(** When the callback of the checker raises a notification. *)
Lemma check_Some now shown c n :
  check now shown c = Some n ↔
  n = reminder c ∧
  ∃ i t, id c = Some i ∧ i ≠ "" ∧ (i ∉ shown) ∧
         remindDateTime c = Some t ∧ 0 ≤ t - now < 60000.
Proof.
  unfold check. destruct (truthy (id c)) as [i|] eqn:Hi.
  - apply truthy_Some in Hi as [Hi Hne].
    destruct (in_window (diff now c)) eqn:Hw; simpl.
    + apply in_window_true in Hw as (x & Hx & Hr).
      unfold diff in Hx. destruct (remindDateTime c) as [t|] eqn:Ht; [|done].
      simpl in Hx. injection Hx as <-.
      case_bool_decide as Hs; simpl.
      * split; [done|]. intros (_ & i' & t' & Hi' & _ & Hs' & _).
        congruence.
      * split; [intros [= <-]|(by intros [-> _])].
        split; [done|]. by exists i, t.
    + split; [done|]. intros (_ & i' & t' & _ & _ & _ & Ht & Hr).
      assert (in_window (diff now c) = true) as Hw'; [|congruence].
      apply in_window_true. exists (t' - now). unfold diff. by rewrite Ht.
  - split; [done|]. intros (_ & i & t & Hi' & Hne & _).
    assert (truthy (id c) = Some i) as Hi''; [|congruence].
    by apply truthy_Some.
Qed.

Lemma elem_of_foldl_add_shown i shown (log : list notification) :
  i ∈ foldl add_shown shown log ↔
  i ∈ shown ∨ ∃ n, n ∈ log ∧ id (about n) = Some i.
Proof.
  revert shown. induction log as [|n log IH]; intros shown; simpl.
  - split; [by left|]. intros [?|(n & Hn & _)]; [done|].
    by apply elem_of_nil in Hn.
  - rewrite IH. unfold add_shown. split.
    + intros [Hi|(m & Hm & Hid)]; [|right; exists m; split; [by right|done]].
      destruct (id (about n)) as [i'|] eqn:Hi'; [|by left].
      apply elem_of_union in Hi as [->%elem_of_singleton|Hi]; [|by left].
      right. exists n. split; [by left|done].
    + intros [Hi|(m & [->|Hm]%elem_of_cons & Hid)].
      * left. destruct (id (about n)); [|done].
        apply elem_of_union. by right.
      * left. rewrite Hid. apply elem_of_union. left.
        by apply elem_of_singleton.
      * right. by exists m.
Qed.

(** A notification of a tick is about a cache entry with a truthy id that
    had not been shown and that is shown afterwards. *)
Lemma tick_log now st n :
  n ∈ (tick now st).1 →
  about n ∈ contacts st ∧
  ∃ i, id (about n) = Some i ∧ i ≠ "" ∧
       (i ∉ shownReminders st) ∧ i ∈ shownReminders (tick now st).2.
Proof.
  unfold tick. simpl. intros Hn.
  pose proof Hn as (c & Hc & Hcheck)%list_elem_of_omap.
  apply check_Some in Hcheck as (-> & i & t & Hi & Hne & Hs & _).
  split; [done|]. exists i. repeat split; try done.
  apply elem_of_foldl_add_shown. right. by exists (reminder c).
Qed.

Lemma tick_shown_mono now st i :
  i ∈ shownReminders st → i ∈ shownReminders (tick now st).2.
Proof. intros Hi. apply elem_of_foldl_add_shown. by left. Qed.

Lemma step_shown_mono a st i :
  i ∈ shownReminders st → i ∈ shownReminders (step a st).2.
Proof.
  destruct a; simpl; try done.
  - unfold handleDeleteContact. by destruct ok.
  - apply tick_shown_mono.
Qed.

Lemma raised_for_app i (l1 l2 : list notification) :
  raised_for i (l1 ++ l2) = raised_for i l1 ++ raised_for i l2.
Proof. apply filter_app. Qed.

(** A tick raises, for an id, at most as many notifications as the cache
    has entries with that id. *)
Lemma tick_raised_le now shown i (cs : list ContactData) :
  (length (raised_for i (omap (check now shown) cs))
   ≤ length (filter (λ j, j = i) (omap (λ c, truthy (id c)) cs)))%nat.
Proof.
  induction cs as [|c cs IH]; simpl; [done|].
  destruct (check now shown c) as [n|] eqn:Hc.
  - apply check_Some in Hc as (-> & i' & t & Hi & Hne & _).
    assert (truthy (id c) = Some i') as -> by by apply truthy_Some.
    unfold raised_for in *. rewrite !filter_cons. simpl. rewrite Hi.
    repeat case_decide; simpl; try congruence; [apply le_n_S|]; exact IH.
  - destruct (truthy (id c)) as [i'|]; [|done].
    rewrite filter_cons. case_decide; simpl; [apply Nat.le_le_succ_r|]; exact IH.
Qed.

Lemma NoDup_filter_eq_length (l : list string) i :
  NoDup l → (length (filter (λ j, j = i) l) ≤ 1)%nat.
Proof.
  induction 1 as [|j l Hj _ IH]; [simpl; lia|].
  rewrite filter_cons. case_decide as Hji; [|done].
  subst j. simpl.
  destruct (filter (λ j, j = i) l) as [|j rest] eqn:Hf; [done|].
  exfalso. apply Hj.
  assert (j ∈ filter (λ j, j = i) l) as [-> ?]%list_elem_of_filter; [|done].
  rewrite Hf. by left.
Qed.

End ClientFacts.

Section ClientRuns.
Import Client.
Context {P : Platform}.

Implicit Types (c : ContactData) (n : notification) (st : state) (i : string).

Lemma run_cons_log a acts st :
  (run (a :: acts) st).1 = (step a st).1 ++ (run acts (step a st).2).1.
Proof.
  cbn [run]. destruct (step a st) as [log st']. cbn [fst snd].
  by destruct (run acts st') as [log' st''].
Qed.

Lemma raised_for_nil i (log : list notification) :
  (∀ n, n ∈ log → id (about n) ≠ Some i) → raised_for i log = [].
Proof.
  intros Hall. unfold raised_for.
  destruct (filter _ log) as [|n rest] eqn:Hf; [done|].
  assert (n ∈ filter (λ n, id (about n) = Some i) log) as Hn
    by (rewrite Hf; left).
  apply list_elem_of_filter in Hn as [Hi Hn]. by destruct (Hall n Hn).
Qed.

Lemma raised_for_cons_inv i (log : list notification) :
  raised_for i log ≠ [] → ∃ n, n ∈ log ∧ id (about n) = Some i.
Proof.
  unfold raised_for.
  destruct (filter _ log) as [|n rest] eqn:Hf; [done|]. intros _.
  assert (n ∈ filter (λ n, id (about n) = Some i) log) as Hn
    by (rewrite Hf; left).
  apply list_elem_of_filter in Hn as [Hi Hn]. by exists n.
Qed.

Lemma step_raised_shown a st i :
  i ∈ shownReminders st → raised_for i (step a st).1 = [].
Proof.
  intros Hi. destruct a; try done. simpl.
  apply raised_for_nil. intros n Hn Hid.
  apply tick_log in Hn as (_ & i' & Hi' & _ & Hs & _). congruence.
Qed.

(** An id that is in [shownReminders] is never notified again, whatever
    happens to the cache afterwards. *)
Lemma shown_never_raised acts st i :
  i ∈ shownReminders st → raised_for i (run acts st).1 = [].
Proof.
  revert st. induction acts as [|a acts IH]; intros st Hi; [done|].
  rewrite run_cons_log, raised_for_app, step_raised_shown by done.
  simpl. by apply IH, step_shown_mono.
Qed.

Lemma step_raised_le a st i :
  match a with Tick _ => NoDup (cached_ids st) | _ => True end →
  (length (raised_for i (step a st).1) ≤ 1)%nat.
Proof.
  destruct a as [| | | |now]; simpl; try lia.
  intros Hnd. etrans; [apply tick_raised_le|].
  by apply NoDup_filter_eq_length.
Qed.

Lemma step_raised_then_shown a st i :
  raised_for i (step a st).1 ≠ [] → i ∈ shownReminders (step a st).2.
Proof.
  intros (n & Hn & Hid)%raised_for_cons_inv.
  destruct a as [| | | |now]; simpl in *; try by apply elem_of_nil in Hn.
  apply tick_log in Hn as (_ & i' & Hi' & _ & _ & Hs). simpl in Hs.
  congruence.
Qed.

End ClientRuns.

Section ClientClaims.
Import Client.

Implicit Types (c : ContactData) (n : notification) (st : state) (i : string).

(** C4: on a tick at clock reading [now], a cache entry with a truthy id
    that is not yet in [shownReminders] is notified exactly when its
    reminder date and time, joined by [T] and read as a date, lie at most
    59999 ms ahead of [now] and not behind it; every notification carries
    the name, the contact point and the contact detail of its entry; an
    entry whose id is missing or empty is never notified. *)
Theorem reminder_raised_iff_due {P : Platform} now st :
  (∀ c i, c ∈ contacts st → id c = Some i → i ≠ "" →
     i ∉ shownReminders st →
     ((∃ n, n ∈ (tick now st).1 ∧ about n = c) ↔
      ∃ t, Date_parse (remindDate c +:+ "T" +:+ remindTime c) = Some t ∧
           0 ≤ t - now < 60000)) ∧
  (∀ n, n ∈ (tick now st).1 →
     text n = "Reminder: Contact " +:+ name (about n) +:+ " via "
              +:+ contactPoint (about n) +:+ " ("
              +:+ contactDetail (about n) +:+ ")" ∧
     title n = "Friend Reminder") ∧
  (∀ c, c ∈ contacts st → truthy (id c) = None →
     ∀ n, n ∈ (tick now st).1 → about n ≠ c).
Proof.
  split; [|split].
  - intros c i Hc Hi Hne Hs. split.
    + intros (n & Hn & <-). unfold tick in Hn. simpl in Hn.
      apply list_elem_of_omap in Hn as (c' & _ & Hc').
      apply check_Some in Hc' as (-> & _ & t & _ & _ & _ & Ht & Hr).
      by exists t.
    + intros (t & Ht & Hr). exists (reminder c). split; [|done].
      unfold tick. simpl. apply list_elem_of_omap. exists c. split; [done|].
      apply check_Some. split; [done|]. by exists i, t.
  - intros n Hn. unfold tick in Hn. simpl in Hn.
    apply list_elem_of_omap in Hn as (c & _ & Hc).
    by apply check_Some in Hc as (-> & _).
  - intros c Hc Hid n Hn <-.
    apply tick_log in Hn as (_ & i & Hi & Hne & _).
    assert (truthy (id (about n)) = Some i) by by apply truthy_Some.
    congruence.
Qed.

(** Alice, due in thirty seconds, on the reference clock. *)
Lemma reminder_raised_iff_due_witness :
  (∃ n, n ∈ (tick t_115930 (State [alice; bob] ∅)).1 ∧ about n = alice) ↔
  ∃ t, Date_parse (remindDate alice +:+ "T" +:+ remindTime alice) = Some t ∧
       0 ≤ t - t_115930 < 60000.
Proof.
  apply (proj1 (reminder_raised_iff_due t_115930 (State [alice; bob] ∅))
           alice "1759233600000").
  - simpl. left.
  - reflexivity.
  - discriminate.
  - simpl. apply not_elem_of_empty.
Defined.

(** Once the reminder instant has passed, the difference is negative and
    the tick is silent: thirty seconds after Alice's reminder nothing is
    raised. *)
Example tick_after_instant_silent :
  (tick (t_115930 + 60000) (State [alice; bob] ∅)).1 = [].
Proof. vm_compute. reflexivity. Qed.

(** C5, as stated, fails: the callbacks of one tick all test the
    [shownReminders] captured before the loop, so two cache entries with
    the same id, both due, are both notified in that tick. *)
Lemma twin_ids_raised_twice_counterexample :
  length (raised_for "1759233600000"
            (run [Tick t_115930] (State [alice; alice_twin] ∅)).1) = 2%nat.
Proof. vm_compute. reflexivity. Qed.

(** C5 (amended): over any sequence of cache changes and ticks, an id that
    has been notified is never notified by a later tick, even if the
    reminder of its contact is edited to a future value; and when no two
    cache entries share an id at any tick, at most one notification is
    ever raised for an id. *)
Theorem one_notification_per_id {P : Platform} acts st i :
  (i ∈ shownReminders st → raised_for i (run acts st).1 = []) ∧
  (∀ a, raised_for i (step a st).1 ≠ [] →
     raised_for i (run acts (step a st).2).1 = []) ∧
  (distinct_at_ticks acts st = true →
     (length (raised_for i (run acts st).1) ≤ 1)%nat).
Proof.
  split; [apply shown_never_raised|]. split.
  { intros a Hr. by apply shown_never_raised, step_raised_then_shown. }
  revert st. induction acts as [|a acts IH]; intros st Hd; [simpl; lia|].
  simpl in Hd. apply andb_true_iff in Hd as [Ha Hd].
  rewrite run_cons_log, raised_for_app, length_app.
  destruct (raised_for i (step a st).1) as [|n l] eqn:Hr.
  - simpl. by apply IH.
  - rewrite shown_never_raised.
    + rewrite <-Hr, Nat.add_0_r. apply step_raised_le.
      destruct a; try done. by apply bool_decide_eq_true in Ha.
    + apply step_raised_then_shown. by rewrite Hr.
Qed.

(** Alice is notified once, thirty seconds ahead; the tick fifteen
    seconds later is silent, and so is the tick thirty seconds ahead of
    her reminder once it has been moved to the next day. *)
Lemma one_notification_per_id_witness :
  distinct_at_ticks
    [Fetched [alice; bob]; Tick t_115930; Tick t_115945;
     Updated alice_later; Tick (t_115930 + day)] (State [] ∅) = true ∧
  (length (raised_for "1759233600000"
     (run [Fetched [alice; bob]; Tick t_115930; Tick t_115945;
           Updated alice_later; Tick (t_115930 + day)] (State [] ∅)).1)
   ≤ 1)%nat.
Proof.
  split; [vm_compute; reflexivity|].
  apply (proj2 (proj2 (one_notification_per_id
    [Fetched [alice; bob]; Tick t_115930; Tick t_115945;
     Updated alice_later; Tick (t_115930 + day)] (State [] ∅)
    "1759233600000"))).
  vm_compute. reflexivity.
Defined.

Lemma StronglySorted_lookup_lt {A} (R : relation A) (l : list A) j k x y :
  StronglySorted R l → l !! j = Some x → l !! k = Some y → (j < k)%nat →
  R x y.
Proof.
  intros Hl. revert j k.
  induction Hl as [|z l Hl IH Hz]; intros j k Hj Hk Hjk; [done|].
  destruct k as [|k]; [lia|]. simpl in Hk.
  destruct j as [|j]; simpl in Hj.
  - injection Hj as ->.
    apply (proj1 (Forall_forall _ _) Hz), list_elem_of_lookup. by exists k.
  - apply (IH j k); [done..|lia].
Qed.

(** The comparator of the display sort is consistent on a cache whose
    reminder dates are all valid. *)
Lemma by_remindDateTime_consistent {P : Platform} (cs : list ContactData) :
  (∀ c, c ∈ cs → is_Some (remindDateTime c)) →
  consistent by_remindDateTime cs.
Proof.
  intros Hvalid.
  assert (∀ a b, a ∈ cs → b ∈ cs →
    SortCompare by_remindDateTime a b
    = default 0 (remindDateTime a) - default 0 (remindDateTime b)) as Hsc.
  { intros a b [ta Ha]%Hvalid [tb Hb]%Hvalid.
    unfold SortCompare, by_remindDateTime. by rewrite Ha, Hb. }
  split.
  - intros a Ha. rewrite Hsc by done. lia.
  - intros a b Ha Hb. rewrite !Hsc by done. lia.
  - intros a b c Ha Hb Hc. rewrite !Hsc by done. lia.
  - intros a b c Ha Hb Hc. rewrite !Hsc by done. lia.
Qed.

(** C9, as stated, fails: a cache entry whose reminder date is invalid
    compares as equal to every other entry, and a sort that meets the
    language's contract may then leave a later reminder ahead of an
    earlier one.  With the reference sort, Bob (1 October) stays ahead of
    Alice (30 September) when the undated Carol sits between them. *)
Lemma undated_entry_breaks_order_counterexample :
  SortContract Reference.platform ∧
  remindDateTime alice = Some 1759233600000 ∧
  remindDateTime bob = Some 1759312800000 ∧
  remindDateTime undated = None ∧
  displayed (State [bob; undated; alice] ∅) !! 0%nat = Some bob ∧
  displayed (State [bob; undated; alice] ∅) !! 2%nat = Some alice.
Proof.
  split; [apply reference_contract|]. by vm_compute.
Qed.

(** C9 (amended): on an engine whose sort meets the language's contract,
    and for a cache whose entries all have a valid reminder date, two
    entries with reminder timestamps T1 < T2 are both displayed, and
    every display position of the T1 entry comes before every display
    position of the T2 entry, whatever their order in the cache. *)
Theorem displayed_in_reminder_order {P : Platform} st a b ta tb :
  SortContract P →
  (∀ c, c ∈ contacts st → is_Some (remindDateTime c)) →
  a ∈ contacts st → b ∈ contacts st →
  remindDateTime a = Some ta → remindDateTime b = Some tb → ta < tb →
  a ∈ displayed st ∧ b ∈ displayed st ∧
  ∀ j k, displayed st !! j = Some a → displayed st !! k = Some b →
         (j < k)%nat.
Proof.
  intros HP Hvalid Ha Hb Hta Htb Hlt. unfold displayed.
  pose proof (sort_perm _ by_remindDateTime (contacts st)) as Hperm.
  repeat split; [by rewrite Hperm..|].
  intros j k Hj Hk.
  pose proof (sort_sorted _ by_remindDateTime (contacts st)
                (by_remindDateTime_consistent _ Hvalid)) as Hsorted.
  destruct (Nat.lt_trichotomy j k) as [?|[->|Hkj]]; [done| |].
  - assert (a = b) by congruence. subst b.
    rewrite Hta in Htb. injection Htb as ->. lia.
  - pose proof (StronglySorted_lookup_lt _ _ _ _ _ _ Hsorted Hk Hj Hkj) as Hle.
    simpl in Hle. unfold SortCompare, by_remindDateTime in Hle.
    rewrite Hta, Htb in Hle. simpl in Hle. lia.
Qed.

(** Bob created before Alice, Alice's reminder the earlier one. *)
Lemma displayed_in_reminder_order_witness :
  alice ∈ displayed (State [bob; alice] ∅) ∧
  bob ∈ displayed (State [bob; alice] ∅) ∧
  ∀ j k, displayed (State [bob; alice] ∅) !! j = Some alice →
         displayed (State [bob; alice] ∅) !! k = Some bob →
         (j < k)%nat.
Proof.
  apply (displayed_in_reminder_order (State [bob; alice] ∅) alice bob
           1759233600000 1759312800000).
  - apply reference_contract.
  - intros c Hc. simpl in Hc.
    apply elem_of_cons in Hc as [->|Hc];
      [|apply list_elem_of_singleton in Hc as ->]; vm_compute; eauto.
  - simpl. right. left.
  - simpl. left.
  - vm_compute. reflexivity.
  - vm_compute. reflexivity.
  - lia.
Defined.

End ClientClaims.

(** * Further properties of the server *)

Section ServerMoreFacts.
Import Server.

Implicit Types (c e u : obj) (d : disk) (k : string).

Lemma filter_all {A} (Q : A → Prop) `{∀ x, Decision (Q x)} (l : list A) :
  (∀ x, x ∈ l → Q x) → filter Q l = l.
Proof.
  induction l as [|x l IH]; intros Hall; [done|].
  rewrite filter_cons_True by (apply Hall; left).
  f_equal. apply IH. intros y Hy. apply Hall. by right.
Qed.

Lemma normalize_idem c : normalize (normalize c) = normalize c.
Proof. apply normalize_fixed, normalize_notes. Qed.

(** Merging the same patch a second time changes nothing. *)
Lemma updated_idem existing patch :
  updated (updated existing patch) patch = updated existing patch.
Proof.
  apply map_eq. intros k. unfold updated at 1.
  rewrite lookup_set_prop, lookup_spread.
  case_decide as Hk.
  - subst k. unfold array_or at 1.
    destruct (isArray (patch !! "notes")) eqn:E; [|done].
    unfold updated, array_or. rewrite lookup_set_prop, E. by case_decide.
  - destruct (patch !! k) as [x|] eqn:Hp; [|done].
    unfold updated. rewrite lookup_set_prop, lookup_spread, Hp.
    by case_decide.
Qed.

Lemma updated_lookup existing patch k :
  updated existing patch !! k =
  if decide (k = "notes") then
    if isArray (patch !! "notes") then patch !! "notes"
    else existing !! "notes"
  else match patch !! k with Some v => Some v | None => existing !! k end.
Proof.
  unfold updated, array_or. rewrite lookup_set_prop, lookup_spread.
  repeat case_decide; congruence.
Qed.

(** How a successful delete came about. *)
Lemma router_delete_ok id d res d' :
  router_delete id d = (res, d') → status res = 200 →
  ∃ contacts,
    loadContacts d = Some contacts ∧ writable d = true ∧
    d' = Disk (Some (filter (keeps id) contacts)) true ∧
    loadContacts d' = Some (filter (keeps id) contacts).
Proof.
  unfold router_delete.
  destruct (loadContacts d) as [contacts|] eqn:Hl; [|by intros [= <- <-]].
  destruct (saveContacts _ d) as [d1|] eqn:Hs; [|by intros [= <- <-]].
  intros [= <- <-] _. exists contacts.
  assert (Forall (λ c, isArray (c !! "notes") = true)
            (filter (keeps id) contacts)) as Hall.
  { apply Forall_forall. intros c [_ Hc]%list_elem_of_filter.
    by apply (proj1 (Forall_forall _ _) (loadContacts_notes _ _ Hl)). }
  destruct (load_saved _ _ _ Hs Hall) as [_ Hl1].
  unfold saveContacts in Hs. destruct (writable d); [|done].
  by injection Hs as <-.
Qed.

Lemma serve_cons_disk r rs d :
  (serve (r :: rs) d).2 = (serve rs (handle r d).2).2.
Proof.
  cbn [serve]. destruct (handle r d) as [res d1]. cbn [snd].
  by destruct (serve rs d1).
Qed.

Lemma serve_cons_responses r rs d :
  (serve (r :: rs) d).1 = (handle r d).1 :: (serve rs (handle r d).2).1.
Proof.
  cbn [serve]. destruct (handle r d) as [res d1]. cbn [fst snd].
  by destruct (serve rs d1).
Qed.

End ServerMoreFacts.

Section ServerExtras.
Import Server.

Implicit Types (c e u : obj) (d : disk) (k : string).

(** X1: loading is idempotent.  Normalising a normalised record changes
    nothing, and a list obtained from [loadContacts] that is saved and
    loaded again comes back as the same list. *)
Theorem load_save_load d contacts d' :
  loadContacts d = Some contacts → saveContacts contacts d = Some d' →
  (∀ c, normalize (normalize c) = normalize c) ∧
  data d' = Some contacts ∧ loadContacts d' = Some contacts.
Proof.
  intros Hl Hs. split; [apply normalize_idem|].
  apply (load_saved d); [done|]. by apply (loadContacts_notes d).
Qed.

Lemma load_save_load_witness :
  (∀ c, normalize (normalize c) = normalize c) ∧
  data (Disk (Some [charlie]) true) = Some [charlie] ∧
  loadContacts (Disk (Some [charlie]) true) = Some [charlie].
Proof.
  apply (load_save_load charlie_disk [charlie]).
  - reflexivity.
  - reflexivity.
Defined.

(** X2: a successful create followed by a list shows the contacts that
    were stored before, in their order, followed by the contact that the
    create answered with. *)
Theorem post_then_get now req d res d' :
  router_post now req d = (res, d') → status res = 201 →
  ∃ contacts c,
    loadContacts d = Some contacts ∧ body res = contact_body c ∧
    router_get d' = (Response 200 (JArr (JObj <$> contacts ++ [c])), d').
Proof.
  intros Hpost Hok.
  destruct (router_post_ok _ _ _ _ _ Hpost Hok) as (contacts & Hl & Hs & ->).
  exists contacts, (newContact now req). repeat split; [done|].
  apply load_saved in Hs as [_ Hs].
  - unfold router_get. by rewrite Hs.
  - apply Forall_app. split; [by apply (loadContacts_notes d)|].
    apply Forall_singleton, newContact_notes.
Qed.

Lemma post_then_get_witness :
  ∃ contacts c,
    loadContacts charlie_disk = Some contacts ∧
    body (router_post 1759233600001 eve_body charlie_disk).1 = contact_body c ∧
    router_get (router_post 1759233600001 eve_body charlie_disk).2
    = (Response 200 (JArr (JObj <$> contacts ++ [c])),
       (router_post 1759233600001 eve_body charlie_disk).2).
Proof.
  apply (post_then_get 1759233600001 eve_body charlie_disk).
  - vm_compute. reflexivity.
  - reflexivity.
Defined.

(** X3: creates served one after the other on a healthy store all answer
    201, and the store ends up holding what it held, followed by the new
    contacts in the order of the requests. *)
Theorem posts_keep_order (reqs : list (Z * obj)) d contacts :
  loadContacts d = Some contacts → writable d = true →
  Forall (λ res, status res = 201)
    (serve ((λ r, Post r.1 r.2) <$> reqs) d).1 ∧
  loadContacts (serve ((λ r, Post r.1 r.2) <$> reqs) d).2
  = Some (contacts ++ ((λ r, newContact r.1 r.2) <$> reqs)).
Proof.
  revert d contacts. induction reqs as [|[now req] reqs IH];
    intros d contacts Hl Hw.
  - simpl. by rewrite app_nil_r.
  - rewrite fmap_cons, serve_cons_responses, serve_cons_disk. simpl handle.
    assert (router_post now req d
            = (Response 201 (contact_body (newContact now req)),
               Disk (Some (contacts ++ [newContact now req])) true)) as Hp.
    { unfold router_post, saveContacts. by rewrite Hl, Hw. }
    rewrite Hp. cbn [fst snd].
    assert (loadContacts (Disk (Some (contacts ++ [newContact now req])) true)
            = Some (contacts ++ [newContact now req])) as Hl'.
    { unfold loadContacts. simpl. rewrite map_normalize_fixed; [done|].
      apply Forall_app. split; [by apply (loadContacts_notes d)|].
      apply Forall_singleton, newContact_notes. }
    destruct (IH _ _ Hl' eq_refl) as [Hall Hfin]. split.
    + by constructor.
    + rewrite Hfin, fmap_cons. simpl. by rewrite <-app_assoc.
Qed.

Lemma posts_keep_order_witness :
  Forall (λ res, status res = 201)
    (serve ((λ r, Post r.1 r.2) <$> [(1, alice_body); (2, eve_body)])
       charlie_disk).1 ∧
  loadContacts
    (serve ((λ r, Post r.1 r.2) <$> [(1, alice_body); (2, eve_body)])
       charlie_disk).2
  = Some ([charlie] ++ ((λ r, newContact r.1 r.2)
                          <$> [(1, alice_body); (2, eve_body)])).
Proof.
  apply (posts_keep_order [(1, alice_body); (2, eve_body)] charlie_disk).
  - reflexivity.
  - reflexivity.
Defined.

(** X4: requests that do not reach a write leave the data file exactly
    as it was.  A list request never changes it; a request answered with
    404 does not change it; and while the file cannot be read every
    request is answered with 500 and does not change it. *)
Theorem unwritten_changes_nothing r d :
  (handle Get d).2 = d ∧
  (status (handle r d).1 = 404 → (handle r d).2 = d) ∧
  (data d = None → status (handle r d).1 = 500 ∧ (handle r d).2 = d).
Proof.
  split; [|split].
  - simpl. unfold router_get. by destruct (loadContacts d).
  - destruct r as [|now req|id req|id]; simpl.
    + unfold router_get. by destruct (loadContacts d).
    + unfold router_post. destruct (loadContacts d); [|done]. simpl.
      by destruct (saveContacts _ d).
    + unfold router_put. destruct (loadContacts d) as [cs|]; [|done].
      destruct (findIndex id cs) as [idx|]; [|done].
      destruct (cs !! idx); [|done]. simpl.
      by destruct (saveContacts _ d).
    + unfold router_delete. destruct (loadContacts d); [|done].
      by destruct (saveContacts _ d).
  - intros Hd.
    assert (loadContacts d = None) as Hl
      by (unfold loadContacts; by rewrite Hd).
    destruct r as [|now req|id req|id]; simpl.
    + unfold router_get. by rewrite Hl.
    + unfold router_post. by rewrite Hl.
    + unfold router_put. by rewrite Hl.
    + unfold router_delete. by rewrite Hl.
Qed.

Lemma unwritten_changes_nothing_witness :
  status (handle (Delete "1759233600000") broken_disk).1 = 500 ∧
  (handle (Delete "1759233600000") broken_disk).2 = broken_disk.
Proof.
  apply (proj2 (proj2 (unwritten_changes_nothing
                         (Delete "1759233600000") broken_disk))).
  reflexivity.
Defined.

(** X5: what decides the status of an answer.  A list answers 200 exactly
    when the file can be read; a create answers 201 exactly when it can be
    read and written, whatever the body; an update answers 404 exactly
    when the file can be read and no record carries the id, and 200
    exactly when a record carries it and the file can be written; a
    delete answers 200 exactly when the file can be read and written.
    Every other answer is 500. *)
Theorem status_table r d :
  let st := status (handle r d).1 in
  let carried id := ∃ cs c, loadContacts d = Some cs ∧ c ∈ cs ∧
                            c !! "id" = Some (JStr id) in
  match r with
  | Get => st = 200 ↔ is_Some (data d)
  | Post _ _ => st = 201 ↔ is_Some (data d) ∧ writable d = true
  | Put id _ =>
      (st = 404 ↔ is_Some (data d) ∧ ¬ carried id) ∧
      (st = 200 ↔ carried id ∧ writable d = true)
  | Delete _ => st = 200 ↔ is_Some (data d) ∧ writable d = true
  end ∧
  (st = 200 ∨ st = 201 ∨ st = 404 ∨ st = 500).
Proof.
  intros st carried. subst st.
  assert (∀ cs, loadContacts d = Some cs → is_Some (data d)) as Hread.
  { intros cs. unfold loadContacts. destruct (data d); [by eauto|done]. }
  assert (data d = None → loadContacts d = None) as Hunread.
  { intros Hd. unfold loadContacts. by rewrite Hd. }
  destruct r as [|now req|id req|id]; simpl.
  - unfold router_get. destruct (loadContacts d) as [cs|] eqn:Hl; simpl.
    + split; [|by left]. split; [intros _; by apply (Hread cs)|done].
    + split; [|by right; right; right]. split; [done|].
      intros [x Hx]. unfold loadContacts in Hl. by rewrite Hx in Hl.
  - unfold router_post, saveContacts.
    destruct (loadContacts d) as [cs|] eqn:Hl; simpl.
    + destruct (writable d); simpl.
      * split; [|by right; left]. split; [|done].
        intros _. split; [by apply (Hread cs)|done].
      * split; [|by right; right; right]. split; [done|by intros [_ ?]].
    + split; [|by right; right; right]. split; [done|].
      intros [[x Hx] _]. unfold loadContacts in Hl. by rewrite Hx in Hl.
  - assert (carried id ↔ ∃ cs idx, loadContacts d = Some cs ∧
                                    findIndex id cs = Some idx) as Hcar.
    { split.
      - intros (cs & c & Hl & Hc & Hid). exists cs.
        destruct (findIndex id cs) as [idx|] eqn:E; [by eauto|].
        by destruct (proj1 (findIndex_None id cs) E c Hc).
      - intros (cs & idx & Hl & Hi).
        apply findIndex_Some in Hi as (c & Hc & Hid).
        exists cs, c. repeat split; try done.
        apply list_elem_of_lookup. by exists idx. }
    unfold router_put.
    destruct (loadContacts d) as [cs|] eqn:Hl.
    + destruct (findIndex id cs) as [idx|] eqn:Hi.
      * assert (carried id) as Hyes by (apply Hcar; by exists cs, idx).
        destruct (findIndex_Some _ _ _ Hi) as (c & Hc & _). rewrite Hc.
        unfold saveContacts. destruct (writable d); simpl.
        -- split; [|by left]. split; [split; [done|by intros [_ ?]]|done].
        -- split; [|by right; right; right].
           split; [split; [done|by intros [_ ?]]|].
           split; [done|by intros [_ ?]].
      * assert (¬ carried id) as Hno.
        { intros (cs' & idx & Hl' & Hi')%Hcar. congruence. }
        simpl. split; [|by right; right; left]. split.
        -- split; [|done]. intros _. split; [by apply (Hread cs)|done].
        -- split; [done|by intros [? _]].
    + assert (¬ carried id) as Hno by (by intros (cs & c & ? & _)).
      simpl. split; [|by right; right; right]. split.
      * split; [done|]. intros [[x Hx] _].
        unfold loadContacts in Hl. by rewrite Hx in Hl.
      * split; [done|by intros [? _]].
  - unfold router_delete, saveContacts.
    destruct (loadContacts d) as [cs|] eqn:Hl; simpl.
    + destruct (writable d); simpl.
      * split; [|by left]. split; [|done].
        intros _. split; [by apply (Hread cs)|done].
      * split; [|by right; right; right]. split; [done|by intros [_ ?]].
    + split; [|by right; right; right]. split; [done|].
      intros [[x Hx] _]. unfold loadContacts in Hl. by rewrite Hx in Hl.
Qed.

Lemma status_table_witness :
  (status (handle (Put "1759233600000" rename_patch) readonly_disk).1 = 404
   ↔ is_Some (data readonly_disk) ∧
     ¬ ∃ cs c, loadContacts readonly_disk = Some cs ∧ c ∈ cs ∧
               c !! "id" = Some (JStr "1759233600000")) ∧
  (status (handle (Put "1759233600000" rename_patch) readonly_disk).1 = 200
   ↔ (∃ cs c, loadContacts readonly_disk = Some cs ∧ c ∈ cs ∧
              c !! "id" = Some (JStr "1759233600000")) ∧
     writable readonly_disk = true).
Proof.
  exact (proj1 (status_table (Put "1759233600000" rename_patch) readonly_disk)).
Defined.

(** X6: the merge of an update, for any patch.  A successful update
    merges the patch into the first stored record that carries the id of
    the request.  In the record that it answers with and stores in that
    place, [notes] is the patch's [notes] when that is an array and the
    stored notes otherwise; every other key has the patch's value when
    the patch has the key and the stored value when it has not. *)
Theorem put_merge_law id patch d res d' :
  router_put id patch d = (res, d') → status res = 200 →
  ∃ contacts idx existing u,
    loadContacts d = Some contacts ∧ contacts !! idx = Some existing ∧
    existing !! "id" = Some (JStr id) ∧
    (∀ j c, (j < idx)%nat → contacts !! j = Some c →
            c !! "id" ≠ Some (JStr id)) ∧
    res = Response 200 (contact_body u) ∧
    loadContacts d' = Some (<[idx := u]> contacts) ∧
    u !! "notes" = (if isArray (patch !! "notes") then patch !! "notes"
                    else existing !! "notes") ∧
    (∀ k v, k ≠ "notes" → patch !! k = Some v → u !! k = Some v) ∧
    (∀ k, k ≠ "notes" → patch !! k = None → u !! k = existing !! k).
Proof.
  intros Hput Hok.
  destruct (router_put_ok _ _ _ _ _ Hput Hok)
    as (contacts & idx & existing & Hl & Hi & He & Hs & ->).
  exists contacts, idx, existing, (updated existing patch).
  pose proof (loadContacts_notes _ _ Hl) as Hall.
  apply load_saved in Hs as [_ Hs].
  2:{ apply Forall_insert; [done|]. apply updated_notes.
      apply (Forall_lookup_1 _ _ _ _ Hall He). }
  apply findIndex_first in Hi as [(c & Hc & Hcid) Hfirst].
  assert (c = existing) as -> by congruence.
  repeat split; try done.
  - by rewrite updated_lookup, decide_True.
  - intros k v Hk Hp. by rewrite updated_lookup, decide_False, Hp.
  - intros k Hk Hp. by rewrite updated_lookup, decide_False, Hp.
Qed.

(** Charlie's record, the second of the store, takes a patch of four
    keys. *)
Lemma put_merge_law_witness :
  ∃ contacts idx existing u,
    loadContacts crowded_disk = Some contacts ∧
    contacts !! idx = Some existing ∧
    existing !! "id" = Some (JStr "1759233600000") ∧
    (∀ j c, (j < idx)%nat → contacts !! j = Some c →
            c !! "id" ≠ Some (JStr "1759233600000")) ∧
    (router_put "1759233600000" full_patch crowded_disk).1
      = Response 200 (contact_body u) ∧
    loadContacts (router_put "1759233600000" full_patch crowded_disk).2
      = Some (<[idx := u]> contacts) ∧
    u !! "notes" = (if isArray (full_patch !! "notes")
                    then full_patch !! "notes" else existing !! "notes") ∧
    (∀ k v, k ≠ "notes" → full_patch !! k = Some v → u !! k = Some v) ∧
    (∀ k, k ≠ "notes" → full_patch !! k = None → u !! k = existing !! k).
Proof.
  apply (put_merge_law "1759233600000" full_patch crowded_disk).
  - vm_compute. reflexivity.
  - reflexivity.
Defined.

(** X7: an update touches one record only, the first one that carries
    the id.  The record at the place it rewrites carries the id of the
    request and no record before it does; that place then holds the
    merged record; every other position of the store keeps its record (a
    later record with the same id included), and the store keeps its
    length. *)
Theorem put_first_match_only id patch d res d' :
  router_put id patch d = (res, d') → status res = 200 →
  ∃ contacts stored idx existing,
    loadContacts d = Some contacts ∧ loadContacts d' = Some stored ∧
    length stored = length contacts ∧
    contacts !! idx = Some existing ∧
    existing !! "id" = Some (JStr id) ∧
    (∀ j c, (j < idx)%nat → contacts !! j = Some c →
            c !! "id" ≠ Some (JStr id)) ∧
    stored !! idx = Some (updated existing patch) ∧
    res = Response 200 (contact_body (updated existing patch)) ∧
    (∀ j, j ≠ idx → stored !! j = contacts !! j).
Proof.
  intros Hput Hok.
  destruct (router_put_ok _ _ _ _ _ Hput Hok)
    as (contacts & idx & existing & Hl & Hi & He & Hs & ->).
  exists contacts, (<[idx := updated existing patch]> contacts), idx, existing.
  pose proof (loadContacts_notes _ _ Hl) as Hall.
  apply load_saved in Hs as [_ Hs].
  2:{ apply Forall_insert; [done|]. apply updated_notes.
      apply (Forall_lookup_1 _ _ _ _ Hall He). }
  apply findIndex_first in Hi as [(c & Hc & Hcid) Hfirst].
  assert (c = existing) as -> by congruence.
  repeat split; try done.
  - apply length_insert.
  - apply list_lookup_insert_eq. by apply lookup_lt_Some in He.
  - intros j Hj. by apply list_lookup_insert_ne.
Qed.

(** Charlie's first record is renamed; the later record with his id and
    Dave's record ahead of it stay. *)
Lemma put_first_match_only_witness :
  ∃ contacts stored idx existing,
    loadContacts crowded_disk = Some contacts ∧
    loadContacts (router_put "1759233600000" rename_patch crowded_disk).2
      = Some stored ∧
    length stored = length contacts ∧
    contacts !! idx = Some existing ∧
    existing !! "id" = Some (JStr "1759233600000") ∧
    (∀ j c, (j < idx)%nat → contacts !! j = Some c →
            c !! "id" ≠ Some (JStr "1759233600000")) ∧
    stored !! idx = Some (updated existing rename_patch) ∧
    (router_put "1759233600000" rename_patch crowded_disk).1
      = Response 200 (contact_body (updated existing rename_patch)) ∧
    (∀ j, j ≠ idx → stored !! j = contacts !! j).
Proof.
  apply (put_first_match_only "1759233600000" rename_patch crowded_disk).
  - vm_compute. reflexivity.
  - reflexivity.
Defined.

(** X8: an update is idempotent.  When the patch does not change the id,
    sending the same update again gives the same answer and leaves the
    data file as the first update wrote it. *)
Theorem put_idempotent id patch d res d' :
  patch !! "id" = None ∨ patch !! "id" = Some (JStr id) →
  router_put id patch d = (res, d') → status res = 200 →
  router_put id patch d' = (res, d').
Proof.
  intros Hid Hput Hok.
  destruct (router_put_ok _ _ _ _ _ Hput Hok)
    as (contacts & idx & existing & Hl & Hi & He & Hs & ->).
  pose proof (loadContacts_notes _ _ Hl) as Hall.
  set (u := updated existing patch) in *.
  assert (Forall (λ c, isArray (c !! "notes") = true) (<[idx := u]> contacts))
    as Hall'.
  { apply Forall_insert; [done|]. apply updated_notes.
    apply (Forall_lookup_1 _ _ _ _ Hall He). }
  destruct (load_saved _ _ _ Hs Hall') as [_ Hl'].
  assert (d' = Disk (Some (<[idx := u]> contacts)) true) as Hd'.
  { unfold saveContacts in Hs. destruct (writable d); [|done].
    by injection Hs as <-. }
  assert ((<[idx := u]> contacts) !! idx = Some u) as Hu.
  { apply list_lookup_insert_eq. by apply lookup_lt_Some in He. }
  assert (findIndex id (<[idx := u]> contacts) = Some idx) as Hi'.
  { apply findIndex_first. apply findIndex_first in Hi as [(c & Hc & Hcid) Hf].
    assert (c = existing) as -> by congruence. split.
    - exists u. split; [done|]. unfold u.
      rewrite updated_lookup, decide_False by done.
      by destruct Hid as [->| ->].
    - intros j c Hj Hc'. rewrite list_lookup_insert_ne in Hc' by lia.
      by apply (Hf j). }
  assert (updated u patch = u) as Hidem by apply updated_idem.
  unfold router_put. rewrite Hl', Hi', Hu. simpl.
  rewrite !Hidem, list_insert_insert_eq.
  subst d'. unfold saveContacts. simpl. done.
Qed.

Lemma put_idempotent_witness :
  router_put "1759233600000" notes_patch
    (router_put "1759233600000" notes_patch charlie_disk).2
  = router_put "1759233600000" notes_patch charlie_disk.
Proof.
  rewrite (surjective_pairing
             (router_put "1759233600000" notes_patch charlie_disk)) at 2.
  apply (put_idempotent "1759233600000" notes_patch charlie_disk).
  - left. reflexivity.
  - vm_compute. reflexivity.
  - reflexivity.
Defined.

(** X9: a successful delete keeps the remaining records in their order:
    what is stored afterwards is a subsequence of what was stored, and it
    is the very same list when no record carried the id. *)
Theorem delete_keeps_order id d res d' :
  router_delete id d = (res, d') → status res = 200 →
  ∃ contacts stored,
    loadContacts d = Some contacts ∧ loadContacts d' = Some stored ∧
    stored `sublist_of` contacts ∧
    ((∀ c, c ∈ contacts → c !! "id" ≠ Some (JStr id)) → stored = contacts).
Proof.
  intros Hdel Hok.
  destruct (router_delete_ok _ _ _ _ Hdel Hok) as (contacts & Hl & _ & _ & Hl').
  exists contacts, (filter (keeps id) contacts). repeat split; try done.
  - apply sublist_filter.
  - intros Hnone. apply filter_all. intros c Hc. by apply keeps_iff, Hnone.
Qed.

Lemma delete_keeps_order_witness :
  ∃ contacts stored,
    loadContacts crowded_disk = Some contacts ∧
    loadContacts (router_delete "1759233600000" crowded_disk).2 = Some stored ∧
    stored `sublist_of` contacts ∧
    ((∀ c, c ∈ contacts → c !! "id" ≠ Some (JStr "1759233600000")) →
     stored = contacts).
Proof.
  apply (delete_keeps_order "1759233600000" crowded_disk
           (router_delete "1759233600000" crowded_disk).1).
  - vm_compute. reflexivity.
  - reflexivity.
Defined.

(** X10: after a successful delete of an id, an update of that id is
    answered with 404 and changes nothing. *)
Theorem delete_then_put id patch d res d' :
  router_delete id d = (res, d') → status res = 200 →
  router_put id patch d' = (Response 404 (message "Contact not found"), d').
Proof.
  intros Hdel Hok.
  destruct (router_delete_ok _ _ _ _ Hdel Hok) as (contacts & _ & _ & _ & Hl').
  unfold router_put. rewrite Hl'.
  assert (findIndex id (filter (keeps id) contacts) = None) as ->; [|done].
  apply findIndex_None. intros c [Hk _]%list_elem_of_filter.
  by apply keeps_iff.
Qed.

Lemma delete_then_put_witness :
  router_put "1759233600000" rename_patch
    (router_delete "1759233600000" crowded_disk).2
  = (Response 404 (message "Contact not found"),
     (router_delete "1759233600000" crowded_disk).2).
Proof.
  apply (delete_then_put "1759233600000" rename_patch crowded_disk
           (router_delete "1759233600000" crowded_disk).1).
  - vm_compute. reflexivity.
  - reflexivity.
Defined.

(** X11: deleting the contact that a create has just made gives back the
    store as it was loaded before the create, provided the body had no
    [id] of its own and no stored record carried the minted id. *)
Theorem post_then_delete now req d res d' contacts :
  req !! "id" = None → loadContacts d = Some contacts →
  (∀ c, c ∈ contacts → c !! "id" ≠ Some (JStr (toString now))) →
  router_post now req d = (res, d') → status res = 201 →
  ∃ d'', router_delete (toString now) d'
         = (Response 200 (message "Deleted"), d'') ∧
         loadContacts d'' = Some contacts.
Proof.
  intros Hid Hl Hfresh Hpost Hok.
  destruct (router_post_ok _ _ _ _ _ Hpost Hok) as (contacts' & Hl' & Hs & ->).
  assert (contacts' = contacts) as -> by congruence.
  assert (Forall (λ c, isArray (c !! "notes") = true)
            (contacts ++ [newContact now req])) as Hall.
  { apply Forall_app. split; [by apply (loadContacts_notes d)|].
    apply Forall_singleton, newContact_notes. }
  destruct (load_saved _ _ _ Hs Hall) as [_ Hl1].
  assert (writable d' = true) as Hw.
  { unfold saveContacts in Hs. destruct (writable d); [|done].
    by injection Hs as <-. }
  assert (filter (keeps (toString now)) (contacts ++ [newContact now req])
          = contacts) as Hf.
  { rewrite filter_app, filter_all.
    - rewrite filter_cons_False, filter_nil; [by rewrite app_nil_r|].
      rewrite keeps_iff. intros Hne. apply Hne.
      unfold newContact. rewrite lookup_set_prop, lookup_spread, Hid.
      case_decide; [done|]. by rewrite lookup_singleton_eq.
    - intros c Hc. by apply keeps_iff, Hfresh. }
  eexists. split.
  - unfold router_delete, saveContacts. by rewrite Hl1, Hw, Hf.
  - unfold loadContacts. simpl. rewrite map_normalize_fixed; [done|].
    by apply (loadContacts_notes d).
Qed.

Lemma post_then_delete_witness :
  ∃ d'', router_delete (toString 1759233600001)
           (router_post 1759233600001 eve_body charlie_disk).2
         = (Response 200 (message "Deleted"), d'') ∧
         loadContacts d'' = Some [charlie].
Proof.
  apply (post_then_delete 1759233600001 eve_body charlie_disk
           (router_post 1759233600001 eve_body charlie_disk).1).
  - reflexivity.
  - reflexivity.
  - intros c ->%list_elem_of_singleton. vm_compute. discriminate.
  - vm_compute. reflexivity.
  - reflexivity.
Defined.

(** X12: ids stay unique as long as the clock moves on.  In a store whose
    ids are the renderings of pairwise different clock readings, a create
    without an [id] of its own, made at a reading not among them, leaves
    a store whose ids are again renderings of pairwise different
    readings, and so are pairwise different. *)
Theorem fresh_reading_keeps_ids_unique now req d res d' contacts
    (stamps : list Z) :
  loadContacts d = Some contacts →
  (λ c : obj, c !! "id") <$> contacts
    = (λ t, Some (JStr (toString t))) <$> stamps →
  NoDup stamps → now ∉ stamps → req !! "id" = None →
  router_post now req d = (res, d') → status res = 201 →
  ∃ stored,
    loadContacts d' = Some stored ∧
    (λ c : obj, c !! "id") <$> stored
      = (λ t, Some (JStr (toString t))) <$> (stamps ++ [now]) ∧
    NoDup (stamps ++ [now]) ∧
    NoDup ((λ c : obj, c !! "id") <$> stored).
Proof.
  intros Hl Hids Hnd Hnow Hid Hpost Hok.
  destruct (router_post_ok _ _ _ _ _ Hpost Hok) as (contacts' & Hl' & Hs & ->).
  assert (contacts' = contacts) as -> by congruence.
  assert (Forall (λ c, isArray (c !! "notes") = true)
            (contacts ++ [newContact now req])) as Hall.
  { apply Forall_app. split; [by apply (loadContacts_notes d)|].
    apply Forall_singleton, newContact_notes. }
  destruct (load_saved _ _ _ Hs Hall) as [_ Hl1].
  exists (contacts ++ [newContact now req]).
  assert (NoDup (stamps ++ [now])) as Hnd'.
  { apply NoDup_app. repeat split; [done| |apply NoDup_singleton].
    intros t Ht ->%list_elem_of_singleton. done. }
  assert ((λ c : obj, c !! "id") <$> contacts ++ [newContact now req]
          = (λ t, Some (JStr (toString t))) <$> (stamps ++ [now])) as Hids'.
  { rewrite !fmap_app, Hids. f_equal. simpl. f_equal.
    unfold newContact. rewrite lookup_set_prop, lookup_spread, Hid.
    case_decide; [done|]. by rewrite lookup_singleton_eq. }
  repeat split; try done.
  rewrite Hids'. apply NoDup_fmap_2; [|done].
  intros t1 t2 [= Heq]. unfold toString in Heq. by apply (inj pretty) in Heq.
Qed.

Lemma fresh_reading_keeps_ids_unique_witness :
  ∃ stored,
    loadContacts (router_post 1759233600001 eve_body charlie_disk).2
      = Some stored ∧
    (λ c : obj, c !! "id") <$> stored
      = (λ t, Some (JStr (toString t)))
          <$> ([1759233600000] ++ [1759233600001]) ∧
    NoDup ([1759233600000] ++ [1759233600001]) ∧
    NoDup ((λ c : obj, c !! "id") <$> stored).
Proof.
  apply (fresh_reading_keeps_ids_unique 1759233600001 eve_body charlie_disk
           (router_post 1759233600001 eve_body charlie_disk).1 _ [charlie]).
  - reflexivity.
  - vm_compute. reflexivity.
  - apply NoDup_singleton.
  - intros Hin%list_elem_of_singleton. discriminate.
  - reflexivity.
  - vm_compute. reflexivity.
  - reflexivity.
Defined.

End ServerExtras.

(** * Further properties of the client *)

Section ClientCacheExtras.
Import Server Client.

Implicit Types (c e : ContactData) (st : state) (i : string) (f : forms).

(** X13: the client's normalisation has nothing left to do on what the
    server lists: the array of a 200 answer to the list request is handed
    to [setContacts] as it came. *)
Theorem fetch_after_get d res d' :
  router_get d = (res, d') → status res = 200 →
  ∃ listed, body res = JArr (JObj <$> listed) ∧
            fetchContacts true listed = Some listed.
Proof.
  unfold router_get.
  destruct (loadContacts d) as [listed|] eqn:Hl; [|by intros [= <- <-]].
  intros [= <- <-] _. exists listed. split; [done|].
  unfold fetchContacts, normalized. f_equal.
  apply (map_normalize_fixed listed), (loadContacts_notes d listed Hl).
Qed.

Lemma fetch_after_get_witness :
  ∃ listed, body (router_get charlie_disk).1 = JArr (JObj <$> listed) ∧
            fetchContacts true listed = Some listed.
Proof.
  apply (fetch_after_get charlie_disk (router_get charlie_disk).1
           (router_get charlie_disk).2).
  - vm_compute. reflexivity.
  - reflexivity.
Defined.

(** X14: [handleUpdateContact] keeps the length of the cache and the set
    of shown reminders; afterwards every entry with the id of the new
    contact is the new contact; a cache without an entry of that id is
    left as it was; and doing it twice is the same as doing it once. *)
Theorem update_cache_entry contact st :
  length (contacts (handleUpdateContact contact st)) = length (contacts st) ∧
  shownReminders (handleUpdateContact contact st) = shownReminders st ∧
  (∀ e, e ∈ contacts (handleUpdateContact contact st) →
        id e = id contact → e = contact) ∧
  ((∀ e, e ∈ contacts st → id e ≠ id contact) →
   handleUpdateContact contact st = st) ∧
  handleUpdateContact contact (handleUpdateContact contact st)
  = handleUpdateContact contact st.
Proof.
  destruct st as [cs shown]. unfold handleUpdateContact. simpl.
  repeat split.
  - apply length_fmap.
  - intros e (e0 & -> & _)%list_elem_of_fmap He.
    by case_bool_decide.
  - intros Hnone. f_equal.
    induction cs as [|e cs IH]; [done|]. simpl. f_equal.
    + rewrite bool_decide_eq_false_2; [done|]. apply Hnone. by left.
    + apply IH. intros e' He'. apply Hnone. by right.
  - f_equal. rewrite <-list_fmap_compose. apply list_fmap_ext.
    intros _ e _. simpl. repeat case_bool_decide; done.
Qed.

Lemma update_cache_entry_witness :
  handleUpdateContact alice_later (State [bob] ∅) = State [bob] ∅.
Proof.
  apply (proj1 (proj2 (proj2 (proj2
           (update_cache_entry alice_later (State [bob] ∅)))))).
  intros e ->%list_elem_of_singleton. discriminate.
Defined.

(** X15: [handleDeleteContact] leaves everything as it was when the
    request failed.  When it succeeded, no cache entry with the id is
    left; the entries left are a subsequence of the cache, and together
    with the entries that carried the id they make up the whole cache, so
    every entry with another id is kept, as often as it occurred and in
    its order; the set of shown reminders is untouched; and deleting a
    contact that has just been added to a cache without an entry of its
    id gives back that cache. *)
Theorem delete_cache_entry i st :
  handleDeleteContact i false st = st ∧
  (∀ e, e ∈ contacts (handleDeleteContact i true st) → id e ≠ Some i) ∧
  contacts (handleDeleteContact i true st) `sublist_of` contacts st ∧
  contacts (handleDeleteContact i true st)
    ++ filter (λ e, id e = Some i) (contacts st) ≡ₚ contacts st ∧
  (∀ e, e ∈ contacts st → id e ≠ Some i →
        e ∈ contacts (handleDeleteContact i true st)) ∧
  shownReminders (handleDeleteContact i true st) = shownReminders st ∧
  (∀ c, id c = Some i → (∀ e, e ∈ contacts st → id e ≠ Some i) →
        handleDeleteContact i true (handleAddContact c st) = st).
Proof.
  destruct st as [cs shown]. unfold handleDeleteContact, handleAddContact.
  simpl. repeat split.
  - by intros e [He _]%list_elem_of_filter.
  - apply sublist_filter.
  - rewrite <-(filter_app_complement (λ e, id e ≠ Some i) cs) at 3.
    f_equiv. apply reflexive_eq, list_filter_iff. intros e. split.
    + intros He Hne. done.
    + intros He. by destruct (decide (id e = Some i)).
  - intros e He Hne. by apply list_elem_of_filter.
  - intros c Hc Hnone. f_equal.
    rewrite filter_app, filter_all by done.
    rewrite filter_cons_False, filter_nil; [by rewrite app_nil_r|].
    by intros Hne.
Qed.

(** Alice deleted from a cache where Bob comes after her: Bob stays. *)
Lemma delete_cache_entry_witness :
  bob ∈ contacts (handleDeleteContact "1759233600000" true
                    (State [alice; bob] ∅)).
Proof.
  apply (proj1 (proj2 (proj2 (proj2 (proj2
           (delete_cache_entry "1759233600000" (State [alice; bob] ∅))))))
           bob).
  - simpl. right. left.
  - discriminate.
Defined.

(** X16: toggling the note form of an id flips whether that form is
    open, leaves every other form alone and clears the note input;
    toggling twice brings every form back to where it was. *)
Theorem toggle_note_form i f :
  form_open i (toggleNoteForm i f) = negb (form_open i f) ∧
  (∀ j, j ≠ i → form_open j (toggleNoteForm i f) = form_open j f) ∧
  noteInput (toggleNoteForm i f) = "" ∧
  (∀ j, form_open j (toggleNoteForm i (toggleNoteForm i f)) = form_open j f).
Proof.
  assert (∀ g, form_open i (toggleNoteForm i g) = negb (form_open i g)) as Hi.
  { intros g. unfold form_open at 1, toggleNoteForm. simpl.
    by rewrite lookup_insert_eq. }
  assert (∀ g j, j ≠ i → form_open j (toggleNoteForm i g) = form_open j g)
    as Hj.
  { intros g j Hne. unfold form_open, toggleNoteForm. simpl.
    by rewrite lookup_insert_ne. }
  repeat split; [apply Hi|apply Hj|].
  intros j. destruct (decide (j = i)) as [->|Hne].
  - by rewrite !Hi, negb_involutive.
  - by rewrite !Hj.
Qed.

Lemma toggle_note_form_witness :
  form_open "1759233600001"
    (toggleNoteForm "1759233600000" (Forms ∅ "Called back"))
  = form_open "1759233600001" (Forms ∅ "Called back").
Proof.
  apply (proj1 (proj2 (toggle_note_form "1759233600000"
                         (Forms ∅ "Called back")))).
  discriminate.
Defined.

End ClientCacheExtras.

Section SchedulerMoreFacts.
Import Client.
Context {P : Platform}.

Implicit Types (c : ContactData) (n : notification) (st : state) (i : string).

Lemma run_cons_state a acts st :
  (run (a :: acts) st).2 = (run acts (step a st).2).2.
Proof.
  cbn [run]. destruct (step a st) as [log st']. cbn [fst snd].
  by destruct (run acts st') as [log' st''].
Qed.

Lemma raised_for_nonempty i (log : list notification) :
  raised_for i log ≠ [] ↔ ∃ n, n ∈ log ∧ id (about n) = Some i.
Proof.
  split; [apply raised_for_cons_inv|].
  intros (n & Hn & Hi) Hnil.
  assert (n ∈ raised_for i log) as Hin by by apply list_elem_of_filter.
  rewrite Hnil in Hin. by apply elem_of_nil in Hin.
Qed.

(** After a step, the shown ids are those shown before and those the step
    raised a notification for. *)
Lemma step_shown a st i :
  i ∈ shownReminders (step a st).2 ↔
  i ∈ shownReminders st ∨ raised_for i (step a st).1 ≠ [].
Proof.
  destruct a as [l|c|c|j ok|now]; simpl.
  1-3: split; [by left|by intros [?|?]].
  - unfold handleDeleteContact. destruct ok; simpl;
      (split; [by left|by intros [?|?]]).
  - rewrite elem_of_foldl_add_shown, raised_for_nonempty. done.
Qed.

Lemma step_contacts_tick now st : contacts (tick now st).2 = contacts st.
Proof. done. Qed.

(** Over ticks alone, at most one notification per id when the cached ids
    are pairwise different. *)
Lemma ticks_raised_le (nows : list Z) st i :
  NoDup (cached_ids st) →
  (length (raised_for i (run (Tick <$> nows) st).1) ≤ 1)%nat.
Proof.
  revert st. induction nows as [|now nows IH]; intros st Hnd; [simpl; lia|].
  rewrite fmap_cons, run_cons_log, raised_for_app, length_app.
  destruct (raised_for i (step (Tick now) st).1) as [|n l] eqn:Hr.
  - simpl. by apply IH.
  - rewrite shown_never_raised.
    + rewrite <-Hr, Nat.add_0_r. by apply (step_raised_le (Tick now)).
    + apply step_raised_then_shown. by rewrite Hr.
Qed.

(** Over ticks alone, a due entry that had not been shown gets its
    notification at the first tick inside its window at the latest. *)
Lemma ticks_raised_ge (nows : list Z) st c i t :
  c ∈ contacts st → id c = Some i → i ≠ "" → i ∉ shownReminders st →
  remindDateTime c = Some t →
  (∃ now, now ∈ nows ∧ 0 ≤ t - now < 60000) →
  raised_for i (run (Tick <$> nows) st).1 ≠ [].
Proof.
  revert st. induction nows as [|now nows IH];
    intros st Hc Hi Hne Hs Ht (now' & Hin & Hw).
  { by apply elem_of_nil in Hin. }
  rewrite fmap_cons, run_cons_log, raised_for_app.
  destruct (raised_for i (step (Tick now) st).1) as [|n l] eqn:Hr; [|done].
  rewrite app_nil_l. apply elem_of_cons in Hin as [->|Hin].
  - exfalso.
    assert (raised_for i (step (Tick now) st).1 ≠ []) as Hraised;
      [|by rewrite Hr in Hraised].
    apply raised_for_nonempty. exists (reminder c). split; [|done].
    simpl. apply list_elem_of_omap. exists c. split; [done|].
    apply check_Some. split; [done|]. by exists i, t.
  - apply IH; try done; [|by exists now'].
    intros Hs'. apply (step_shown (Tick now)) in Hs' as [?|Hraised]; [done|].
    by rewrite Hr in Hraised.
Qed.

End SchedulerMoreFacts.

Section SchedulerExtras.
Import Client.

Implicit Types (c : ContactData) (n : notification) (st : state) (i : string).

(** X17: at any point of a session, the ids in [shownReminders] are the
    ones that were there at the start and the ones a notification has
    been raised for since; no action ever takes an id out. *)
Theorem shown_is_initial_plus_raised {P : Platform} acts st i :
  i ∈ shownReminders (run acts st).2 ↔
  i ∈ shownReminders st ∨ raised_for i (run acts st).1 ≠ [].
Proof.
  revert st. induction acts as [|a acts IH]; intros st.
  - simpl. split; [by left|by intros [?|?]].
  - rewrite run_cons_state, run_cons_log, raised_for_app, IH, step_shown.
    split.
    + intros [[?|Hr]|Hr]; [by left| |].
      * right. intros [Hnil _]%app_eq_nil. done.
      * right. intros [_ Hnil]%app_eq_nil. done.
    + intros [?|Hr]; [by left; left|].
      destruct (raised_for i (step a st).1) as [|n l] eqn:E.
      * right. by rewrite app_nil_l in Hr.
      * left. by right.
Qed.

(** X18: once a tick has run, a second tick on the same cache raises
    nothing for an entry that was due at the first one, whatever its own
    clock reading; at the same clock reading it raises nothing at all. *)
Theorem second_tick_silent {P : Platform} now now' st :
  (∀ n, n ∈ (tick now' (tick now st).2).1 →
        in_window (diff now (about n)) = false) ∧
  (tick now (tick now st).2).1 = [].
Proof.
  assert (∀ now2 n, n ∈ (tick now2 (tick now st).2).1 →
                    in_window (diff now (about n)) = false) as Hgen.
  { intros now2 n Hn. unfold tick at 1 in Hn. simpl in Hn.
    apply list_elem_of_omap in Hn as (c & Hc & Hcheck).
    apply check_Some in Hcheck as (-> & i & t & Hi & Hne & Hs & Ht & Hw).
    simpl. destruct (in_window (diff now c)) eqn:Hdue; [|done].
    exfalso. apply Hs. apply elem_of_foldl_add_shown.
    destruct (decide (i ∈ shownReminders st)) as [Hin|Hout]; [by left|].
    right. exists (reminder c). split; [|done].
    apply list_elem_of_omap. exists c. split; [done|].
    apply in_window_true in Hdue as (x & Hx & Hr).
    unfold diff in Hx. rewrite Ht in Hx. simpl in Hx. injection Hx as <-.
    apply check_Some. split; [done|]. by exists i, t. }
  split; [apply Hgen|].
  destruct (tick now (tick now st).2).1 as [|n l] eqn:E; [done|].
  exfalso.
  assert (n ∈ (tick now (tick now st).2).1) as Hn by (rewrite E; left).
  pose proof (Hgen now n Hn) as Hnot.
  unfold tick at 1 in Hn. simpl in Hn.
  apply list_elem_of_omap in Hn as (c & _ & Hcheck).
  apply check_Some in Hcheck as (-> & i & t & _ & _ & _ & Ht & Hw).
  simpl in Hnot.
  assert (in_window (diff now c) = true) as Hyes; [|congruence].
  apply in_window_true. exists (t - now). unfold diff. by rewrite Ht.
Qed.

(** Bob is raised by a tick one second ahead of his reminder, after the
    tick that raised Alice: he was not due then. *)
Lemma second_tick_silent_witness :
  in_window (diff t_115930 (about (reminder bob))) = false.
Proof.
  apply (proj1 (second_tick_silent t_115930 1759312799000
                  (State [alice; bob] ∅)) (reminder bob)).
  vm_compute. left.
Defined.

(** X19: on an engine whose sort meets the language's contract, the
    display shows every cache entry exactly as often as the cache holds
    it; and when every entry has a valid reminder date, the reminder
    timestamps never decrease down the display. *)
Theorem displayed_is_sorted_cache {P : Platform} st :
  SortContract P →
  displayed st ≡ₚ contacts st ∧
  ((∀ c, c ∈ contacts st → is_Some (remindDateTime c)) →
   ∀ j k x y tx ty, (j < k)%nat →
     displayed st !! j = Some x → displayed st !! k = Some y →
     remindDateTime x = Some tx → remindDateTime y = Some ty → tx ≤ ty).
Proof.
  intros HP. unfold displayed. split; [apply sort_perm|].
  intros Hvalid j k x y tx ty Hjk Hj Hk Hx Hy.
  pose proof (sort_sorted _ by_remindDateTime (contacts st)
                (by_remindDateTime_consistent _ Hvalid)) as Hsorted.
  pose proof (StronglySorted_lookup_lt _ _ _ _ _ _ Hsorted Hj Hk Hjk) as Hle.
  simpl in Hle. unfold SortCompare, by_remindDateTime in Hle.
  rewrite Hx, Hy in Hle. simpl in Hle. lia.
Qed.

Lemma displayed_is_sorted_cache_witness :
  displayed (State [bob; alice; alice_later] ∅)
    ≡ₚ contacts (State [bob; alice; alice_later] ∅) ∧
  ((∀ c, c ∈ contacts (State [bob; alice; alice_later] ∅) →
         is_Some (remindDateTime c)) →
   ∀ j k x y tx ty, (j < k)%nat →
     displayed (State [bob; alice; alice_later] ∅) !! j = Some x →
     displayed (State [bob; alice; alice_later] ∅) !! k = Some y →
     remindDateTime x = Some tx → remindDateTime y = Some ty → tx ≤ ty).
Proof.
  apply (displayed_is_sorted_cache (State [bob; alice; alice_later] ∅)).
  apply reference_contract.
Defined.

(** X20: polling raises exactly one notification for a reminder it gets
    to see.  For a cache with pairwise different ids that only ticks act
    on, an entry with a truthy id that has not been shown, and whose
    reminder lies at most 59999 ms ahead of one of the ticks and not
    behind it, is notified exactly once over all the ticks. *)
Theorem polling_raises_exactly_once {P : Platform} (nows : list Z) st c i t :
  NoDup (cached_ids st) →
  c ∈ contacts st → id c = Some i → i ≠ "" → i ∉ shownReminders st →
  remindDateTime c = Some t →
  (∃ now, now ∈ nows ∧ 0 ≤ t - now < 60000) →
  length (raised_for i (run (Tick <$> nows) st).1) = 1%nat.
Proof.
  intros Hnd Hc Hi Hne Hs Ht Hnow.
  pose proof (ticks_raised_le nows st i Hnd) as Hle.
  pose proof (ticks_raised_ge nows st c i t Hc Hi Hne Hs Ht Hnow) as Hge.
  destruct (raised_for i (run (Tick <$> nows) st).1) as [|n l]; [done|].
  simpl in *. lia.
Qed.

(** Polls five seconds apart around Alice's reminder. *)
Lemma polling_raises_exactly_once_witness :
  length (raised_for "1759233600000"
            (run (Tick <$> [t_115930 - 35000; t_115930 - 30000;
                            t_115930 - 25000; t_115930; t_115945;
                            t_115930 + 60000])
                 (State [alice; bob] ∅)).1) = 1%nat.
Proof.
  apply (polling_raises_exactly_once
           [t_115930 - 35000; t_115930 - 30000; t_115930 - 25000;
            t_115930; t_115945; t_115930 + 60000]
           (State [alice; bob] ∅) alice "1759233600000" 1759233600000).
  - apply (bool_decide_unpack _). vm_compute. exact I.
  - simpl. left.
  - reflexivity.
  - discriminate.
  - simpl. apply not_elem_of_empty.
  - vm_compute. reflexivity.
  - exists (t_115930 - 25000). split.
    + simpl. right. right. left.
    + unfold t_115930. lia.
Defined.

End SchedulerExtras.

Section NewNoteExtras.
Import Server Client.

Implicit Types (c : ContactData) (u : obj) (d : disk).

Lemma contact_json_id c : contact_json c !! "id" = JStr <$> id c.
Proof. unfold contact_json. by rewrite lookup_set_prop, decide_True. Qed.

Lemma contact_json_notes c :
  contact_json c !! "notes" = Some (JArr (note_json <$> notes c)).
Proof.
  unfold contact_json. rewrite lookup_set_prop, decide_False by done.
  by simplify_map_eq.
Qed.

(** Appending a note changes no other field of what is sent. *)
Lemma contact_json_updatedContact c note k :
  k ≠ "notes" →
  contact_json (updatedContact c note) !! k = contact_json c !! k.
Proof.
  intros Hk. unfold contact_json. rewrite !lookup_set_prop. simpl.
  case_decide; [done|].
  rewrite !lookup_insert. repeat (case_decide; [done|]). done.
Qed.

(** X21: adding a note from the client.  When the update that
    [handleNewNote] sends for a cached contact with an id is answered with
    200, the record answered and stored has that id, has as notes the
    cached notes followed by the new note, and agrees with the cached
    contact on every other field the client holds. *)
Theorem new_note_reaches_store contact note i d res d' :
  id contact = Some i →
  router_put (handleNewNote_request contact note).1
             (handleNewNote_request contact note).2 d = (res, d') →
  status res = 200 →
  ∃ u stored,
    res = Response 200 (contact_body u) ∧
    loadContacts d' = Some stored ∧ u ∈ stored ∧
    u !! "id" = Some (JStr i) ∧
    u !! "notes" = Some (JArr (note_json <$> notes contact ++ [note])) ∧
    (∀ k v, k ≠ "notes" → contact_json contact !! k = Some v →
            u !! k = Some v).
Proof.
  intros Hi Hput Hok. unfold handleNewNote_request in Hput. simpl in Hput.
  destruct (router_put_ok _ _ _ _ _ Hput Hok)
    as (contacts & idx & existing & Hl & Hidx & He & Hs & ->).
  set (sent := contact_json (updatedContact contact note)) in *.
  exists (updated existing sent), (<[idx := updated existing sent]> contacts).
  pose proof (loadContacts_notes _ _ Hl) as Hall.
  apply load_saved in Hs as [_ Hs].
  2:{ apply Forall_insert; [done|]. apply updated_notes.
      apply (Forall_lookup_1 _ _ _ _ Hall He). }
  assert (sent !! "notes"
          = Some (JArr (note_json <$> notes contact ++ [note]))) as Hn.
  { unfold sent. by rewrite contact_json_notes. }
  repeat split; try done.
  - apply list_elem_of_lookup. exists idx.
    apply list_lookup_insert_eq. by apply lookup_lt_Some in He.
  - rewrite updated_lookup, decide_False by done.
    unfold sent. rewrite contact_json_updatedContact by done.
    by rewrite contact_json_id, Hi.
  - rewrite updated_lookup, decide_True by done. by rewrite Hn.
  - intros k v Hk Hv. rewrite updated_lookup, decide_False by done.
    unfold sent. rewrite contact_json_updatedContact by done.
    by rewrite Hv.
Qed.

Lemma new_note_reaches_store_witness :
  ∃ u stored,
    (router_put (handleNewNote_request alice first_note).1
       (handleNewNote_request alice first_note).2 charlie_disk).1
      = Response 200 (contact_body u) ∧
    loadContacts
      (router_put (handleNewNote_request alice first_note).1
         (handleNewNote_request alice first_note).2 charlie_disk).2
      = Some stored ∧
    u ∈ stored ∧
    u !! "id" = Some (JStr "1759233600000") ∧
    u !! "notes" = Some (JArr (note_json <$> notes alice ++ [first_note])) ∧
    (∀ k v, k ≠ "notes" → contact_json alice !! k = Some v →
            u !! k = Some v).
Proof.
  apply (new_note_reaches_store alice first_note "1759233600000" charlie_disk).
  - reflexivity.
  - vm_compute. reflexivity.
  - reflexivity.
Defined.

End NewNoteExtras.
